(** * py-caskdb: the record codec (format.py) and the storage engine
    (disk_store.py), embedded in Rocq.

    Python values are modelled as follows.
    - [int] is [Z]; [len x] is [Z.of_nat (length x)].
    - [bytes] is [list Byte.byte]; a slice [data[a:b]] with non-negative
      bounds is [take]/[drop], which clamp at the end like Python does.
    - [str] is the list of its code points, so that [len] counts code points
      and [str.encode()] (UTF-8) produces between one and four bytes each.
    - an exception is the [Raise] case of [result]; methods of [DiskStorage]
      return their outcome together with the object after the call.
    - the key directory (a [dict]) is a [gmap] from [str] to pairs. *)

From Stdlib Require Import ZArith Lia Bool List.
From Stdlib Require Import Strings.Byte.
From stdpp Require Import base option list gmap.

Local Open Scope Z_scope.

(** ** Exceptions and results *)

Inductive exn : Type :=
| StructError          (* struct.error *)
| UnicodeEncodeError
| UnicodeDecodeError
| OSError.

Inductive result (A : Type) : Type :=
| Ok (a : A)
| Raise (e : exn).
Arguments Ok {A} a.
Arguments Raise {A} e.

#[global] Instance result_ret : MRet result := fun A a => Ok a.
#[global] Instance result_bind : MBind result := fun A B k r =>
  match r with
  | Ok a => k a
  | Raise e => Raise e
  end.

(** ** Bytes *)

Abbreviation bytes := (list Byte.byte).

Definition len {A} (l : list A) : Z := Z.of_nat (length l).

Definition byte_val (b : Byte.byte) : Z := Z.of_N (Byte.to_N b).

Definition byte_of (z : Z) : Byte.byte :=
  match Byte.of_N (Z.to_N (z mod 256)) with
  | Some b => b
  | None => Byte.x00
  end.

(** [data[lo:hi]] for [0 <= lo]. *)
Definition slice {A} (data : list A) (lo hi : Z) : list A :=
  take (Z.to_nat (hi - lo)) (drop (Z.to_nat lo) data).

(** [data[lo:]] for [0 <= lo]. *)
Definition slice_from {A} (data : list A) (lo : Z) : list A :=
  drop (Z.to_nat lo) data.

(** ** struct.pack / struct.unpack with format "III"

    The format has no byte-order prefix, so the three unsigned ints are laid
    out in the byte order of the host ([sys.byteorder]); each takes four
    bytes and there is no padding between equal fields. *)

Inductive byteorder : Type := little | big.

Definition u32 (n : Z) : Prop := 0 <= n < 2 ^ 32.
Definition is_u32 (n : Z) : bool := (0 <=? n) && (n <? 2 ^ 32).

Definition le_bytes (n : Z) : bytes :=
  [byte_of n; byte_of (n / 2 ^ 8); byte_of (n / 2 ^ 16); byte_of (n / 2 ^ 24)].

Fixpoint le_value (bs : bytes) : Z :=
  match bs with
  | [] => 0
  | b :: bs' => byte_val b + 256 * le_value bs'
  end.

Definition pack_I (order : byteorder) (n : Z) : bytes :=
  match order with
  | little => le_bytes n
  | big => rev (le_bytes n)
  end.

Definition unpack_I (order : byteorder) (bs : bytes) : Z :=
  match order with
  | little => le_value bs
  | big => le_value (rev bs)
  end.

Definition struct_pack_III (order : byteorder) (a b c : Z) : result bytes :=
  if is_u32 a && is_u32 b && is_u32 c
  then Ok (pack_I order a ++ pack_I order b ++ pack_I order c)
  else Raise StructError.

Definition struct_unpack_III (order : byteorder) (data : bytes)
  : result (Z * Z * Z) :=
  if len data =? 12
  then Ok (unpack_I order (slice data 0 4),
           unpack_I order (slice data 4 8),
           unpack_I order (slice data 8 12))
  else Raise StructError.

(** ** format.py: headers *)

Definition HEADER_SIZE : Z := 12.

Definition encode_header (order : byteorder) (timestamp key_size value_size : Z)
  : result bytes :=
  struct_pack_III order timestamp key_size value_size.

Definition decode_header (order : byteorder) (data : bytes)
  : result (Z * Z * Z) :=
  '(timestamp, key_size, value_size) ← struct_unpack_III order data;
  Ok (timestamp, key_size, value_size).

(** ** str and UTF-8

    [str.encode()] and [bytes.decode()] are called without arguments, so the
    codec is UTF-8 with strict error handling.  They are built-ins of the
    interpreter; the model follows the UTF-8 definition: the shortest form
    only, no surrogates, nothing above U+10FFFF. *)

Abbreviation str := (list Z).

Definition is_surrogate (c : Z) : bool := (0xD800 <=? c) && (c <=? 0xDFFF).

(** A Unicode scalar value: what a character of valid text is. *)
Definition scalar (c : Z) : Prop :=
  0 <= c < 0x110000 /\ ~ (0xD800 <= c <= 0xDFFF).

Definition text (s : str) : Prop := Forall scalar s.

Definition ascii_text (s : str) : Prop := Forall (fun c => 0 <= c < 0x80) s.

Definition utf8_encode_char (c : Z) : result bytes :=
  if c <? 0 then Raise UnicodeEncodeError
  else if c <? 0x80 then Ok [byte_of c]
  else if c <? 0x800 then
    Ok [byte_of (0xC0 + c / 64); byte_of (0x80 + c mod 64)]
  else if c <? 0x10000 then
    if is_surrogate c then Raise UnicodeEncodeError
    else Ok [byte_of (0xE0 + c / 4096);
             byte_of (0x80 + (c / 64) mod 64);
             byte_of (0x80 + c mod 64)]
  else if c <? 0x110000 then
    Ok [byte_of (0xF0 + c / 262144);
        byte_of (0x80 + (c / 4096) mod 64);
        byte_of (0x80 + (c / 64) mod 64);
        byte_of (0x80 + c mod 64)]
  else Raise UnicodeEncodeError.

(** [s.encode()] *)
Fixpoint str_encode (s : str) : result bytes :=
  match s with
  | [] => Ok []
  | c :: s' =>
      cb ← utf8_encode_char c;
      rest ← str_encode s';
      Ok (cb ++ rest)
  end.

Definition is_cont (x : Z) : bool := (0x80 <=? x) && (x <? 0xC0).

Fixpoint utf8_decode (bs : bytes) : option str :=
  match bs with
  | [] => Some []
  | b0 :: r0 =>
    let x0 := byte_val b0 in
    if x0 <? 0x80 then option_map (cons x0) (utf8_decode r0)
    else if x0 <? 0xC2 then None
    else if x0 <? 0xE0 then
      match r0 with
      | b1 :: r1 =>
        let x1 := byte_val b1 in
        if is_cont x1
        then option_map (cons ((x0 - 0xC0) * 64 + (x1 - 0x80))) (utf8_decode r1)
        else None
      | _ => None
      end
    else if x0 <? 0xF0 then
      match r0 with
      | b1 :: b2 :: r2 =>
        let x1 := byte_val b1 in
        let x2 := byte_val b2 in
        let c := (x0 - 0xE0) * 4096 + (x1 - 0x80) * 64 + (x2 - 0x80) in
        if is_cont x1 && is_cont x2 && (0x800 <=? c) && negb (is_surrogate c)
        then option_map (cons c) (utf8_decode r2)
        else None
      | _ => None
      end
    else if x0 <? 0xF5 then
      match r0 with
      | b1 :: b2 :: b3 :: r3 =>
        let x1 := byte_val b1 in
        let x2 := byte_val b2 in
        let x3 := byte_val b3 in
        let c := (x0 - 0xF0) * 262144 + (x1 - 0x80) * 4096
                 + (x2 - 0x80) * 64 + (x3 - 0x80) in
        if is_cont x1 && is_cont x2 && is_cont x3
           && (0x10000 <=? c) && (c <? 0x110000)
        then option_map (cons c) (utf8_decode r3)
        else None
      | _ => None
      end
    else None
  end.

(** [data.decode()] *)
Definition bytes_decode (data : bytes) : result str :=
  match utf8_decode data with
  | Some s => Ok s
  | None => Raise UnicodeDecodeError
  end.

(** A byte string is valid UTF-8 when it is the encoding of some text. *)
Definition valid_utf8 (data : bytes) : Prop :=
  exists s : str, str_encode s = Ok data.

(** ** format.py: records *)

Definition encode_kv (order : byteorder) (timestamp : Z) (key value : str)
  : result (Z * bytes) :=
  header ← encode_header order timestamp (len key) (len value);
  k ← str_encode key;
  v ← str_encode value;
  let data := k ++ v in
  Ok (HEADER_SIZE + len data, header ++ data).

Definition decode_kv (order : byteorder) (data : bytes)
  : result (Z * str * str) :=
  '(timestamp, key_size, value_size) ← decode_header order (slice data 0 HEADER_SIZE);
  let key := slice data HEADER_SIZE (HEADER_SIZE + key_size) in
  let value := slice_from data (HEADER_SIZE + key_size) in
  k ← bytes_decode key;
  v ← bytes_decode value;
  Ok (timestamp, k, v).

(** ** The file object

    [open(file_name, "ab+")] gives a buffered binary file opened for reading
    and appending.  The model keeps the bytes of the file and the position of
    the handle.  Writes go to the end of the file whatever the position is
    (append mode) and leave the position at the new end. *)

Record fileobj : Type := { content : bytes; position : Z }.

Definition file_tell (f : fileobj) : Z := position f.

(** [f.read(n)]: at most [n] bytes from the position, fewer at the end of
    the file; everything that is left when [n] is negative. *)
Definition file_read (n : Z) (f : fileobj) : bytes * fileobj :=
  let rest := slice_from (content f) (position f) in
  let data := if n <? 0 then rest else take (Z.to_nat n) rest in
  (data, {| content := content f; position := position f + len data |}).

(** [f.seek(offset, whence)]; a negative target is an OSError. *)
Definition file_seek (offset whence : Z) (f : fileobj) : result fileobj :=
  let base :=
    if whence =? 0 then 0
    else if whence =? 1 then position f
    else len (content f) in
  if base + offset <? 0 then Raise OSError
  else Ok {| content := content f; position := base + offset |}.

(** What the world supplies to one call of [set]: the clock, whether the
    call of [write] returns, and, when it raises, how many bytes of the data
    had reached the file by then (none, some or all of them). *)
Record env : Type :=
  { time_time : Z; write_ok : bool; write_partial : nat }.

(** [f.write(data)]: the outcome and the file object after the call.  The
    call may raise when part of the data is already in the file; the handle
    is left at the end of what the file then holds.  A call that returns has
    put the data in the file as the handle sees it; what the device reports
    at a later flush is not an outcome of this call. *)
Definition file_write (w : env) (data : bytes) (f : fileobj)
  : result unit * fileobj :=
  let reached := if write_ok w then data else take (write_partial w) data in
  (if write_ok w then Ok tt else Raise OSError,
   {| content := content f ++ reached;
      position := len (content f ++ reached) |}).

(** ** disk_store.py: DiskStorage *)

Module DiskStorage.

Record t : Type := { file : fileobj; key_dir : gmap str (Z * Z) }.

(** One turn of the loop of [__init__]: the object after it and the
    amount added to [bytes_read]. *)
Definition load_record (order : byteorder) (self : t) : result (t * Z) :=
  let '(header, f1) := file_read HEADER_SIZE (file self) in
  '(timestamp, key_size, value_size) ← decode_header order header;
  f2 ← file_seek (- HEADER_SIZE) 1 f1;
  let '(data, f3) := file_read (HEADER_SIZE + key_size + value_size) f2 in
  '(_, key, _) ← decode_kv order data;
  Ok ({| file := f3;
         key_dir := <[key := (file_tell f3 - value_size, value_size)]> (key_dir self) |},
      HEADER_SIZE + key_size + value_size).

(** [while bytes_read != file_size: ...]; [None] when [fuel] turns of the
    loop were not enough. *)
Fixpoint load (order : byteorder) (fuel : nat) (file_size bytes_read : Z)
    (self : t) : option (result t) :=
  if bytes_read =? file_size then Some (Ok self)
  else
    match fuel with
    | O => None
    | S fuel' =>
      match load_record order self with
      | Raise e => Some (Raise e)
      | Ok (self', n) => load order fuel' file_size (bytes_read + n) self'
      end
    end.

(** [DiskStorage(file_name)], where [disk] is what the file at
    [file_name] holds (nothing when it does not exist yet). *)
Definition init (order : byteorder) (disk : bytes) : option (result t) :=
  let self := {| file := {| content := disk; position := len disk |};
                 key_dir := ∅ |} in
  let file_size := len disk in
  let loaded :=
    if negb (file_size =? 0) then
      match file_seek 0 0 (file self) with
      | Raise e => Some (Raise e)
      | Ok f0 =>
        load order (S (length disk)) file_size 0
             {| file := f0; key_dir := key_dir self |}
      end
    else Some (Ok self) in
  match loaded with
  | None => None
  | Some r =>
    Some (self' ← r;
          f ← file_seek 0 2 (file self');
          Ok {| file := f; key_dir := key_dir self' |})
  end.

Definition set (order : byteorder) (w : env) (key value : str) (self : t)
  : result unit * t :=
  match encode_kv order (time_time w) key value with
  | Raise e => (Raise e, self)
  | Ok (sz, data) =>
    let self1 :=
      {| file := file self;
         key_dir := <[key := (file_tell (file self) + sz - len value, len value)]>
                      (key_dir self) |} in
    let '(outcome, f) := file_write w data (file self1) in
    (outcome, {| file := f; key_dir := key_dir self1 |})
  end.

Definition get (key : str) (self : t) : result str * t :=
  match key_dir self !! key with
  | Some (value_pos, value_sz) =>
    match file_seek value_pos 0 (file self) with
    | Raise e => (Raise e, self)
    | Ok f1 =>
      let '(value, f2) := file_read value_sz f1 in
      match file_seek 0 2 f2 with
      | Raise e => (Raise e, {| file := f2; key_dir := key_dir self |})
      | Ok f3 => (bytes_decode value, {| file := f3; key_dir := key_dir self |})
      end
    end
  | None => (Ok [], self)
  end.

(** [close()]: what is left on the disk. *)
Definition close (self : t) : bytes := content (file self).

(** [self[key] = value] and [self[item]] *)
Definition __setitem__ (order : byteorder) (w : env) (key value : str) (self : t)
  : result unit * t :=
  set order w key value self.

Definition __getitem__ (item : str) (self : t) : result str * t :=
  get item self.

(** The objects a program can hold: built by [__init__], then used
    through [set] and [get], whatever these return. *)
Inductive opened (order : byteorder) : t -> Prop :=
| opened_init disk self :
    init order disk = Some (Ok self) -> opened order self
| opened_set w key value self :
    opened order self -> opened order (set order w key value self).2
| opened_get key self :
    opened order self -> opened order (get key self).2.

End DiskStorage.

(** The handle rests at the end of the file. *)
Definition at_end (self : DiskStorage.t) : Prop :=
  position (DiskStorage.file self) = len (content (DiskStorage.file self)).

(** The engines whose writes all went through: built by [__init__], then
    used through [get] and through calls of [set] that the device accepted,
    with keys and values taken from [allowed]. *)
Inductive written (order : byteorder) (allowed : str -> str -> Prop)
  : DiskStorage.t -> Prop :=
| written_init disk self :
    DiskStorage.init order disk = Some (Ok self) -> written order allowed self
| written_set w key value self :
    written order allowed self -> write_ok w = true -> allowed key value ->
    written order allowed (DiskStorage.set order w key value self).2
| written_get key self :
    written order allowed self ->
    written order allowed (DiskStorage.get key self).2.

Definition any_text (key value : str) : Prop := True.

Definition ascii_pair (key value : str) : Prop :=
  ascii_text key /\ ascii_text value.

(** Every entry of the key directory points at bytes the file has, after
    at least one header. *)
Definition entries_in_file (self : DiskStorage.t) : Prop :=
  forall key value_pos value_sz,
    DiskStorage.key_dir self !! key = Some (value_pos, value_sz) ->
    HEADER_SIZE <= value_pos /\ 0 <= value_sz /\
    value_pos + value_sz <= len (content (DiskStorage.file self)).

(** ** Well-formed records

    What the data file is meant to hold: records laid end to end, each a
    12-byte header (timestamp, key size, value size), then the key and the
    value, both UTF-8, of the sizes in bytes the header gives. *)

Record record : Type :=
  { rec_timestamp : Z; rec_key : bytes; rec_value : bytes }.

Definition record_bytes (order : byteorder) (r : record) : bytes :=
  (pack_I order (rec_timestamp r) ++ pack_I order (len (rec_key r))
     ++ pack_I order (len (rec_value r)))
    ++ rec_key r ++ rec_value r.

Definition record_size (r : record) : Z :=
  HEADER_SIZE + len (rec_key r) + len (rec_value r).

Definition wf_record (r : record) : Prop :=
  u32 (rec_timestamp r) /\ u32 (len (rec_key r)) /\ u32 (len (rec_value r)) /\
  valid_utf8 (rec_key r) /\ valid_utf8 (rec_value r).

Definition log_bytes (order : byteorder) (rs : list record) : bytes :=
  concat (map (record_bytes order) rs).

(** The key directory that indexes the records [rs] laid out from offset
    [base] on, added to [kd]: each key with the offset and the size of its
    value, later records replacing earlier ones. *)
Fixpoint index_records (base : Z) (rs : list record) (kd : gmap str (Z * Z))
  : gmap str (Z * Z) :=
  match rs with
  | [] => kd
  | r :: rs' =>
    let stop := base + record_size r in
    match utf8_decode (rec_key r) with
    | Some key =>
      index_records stop rs'
        (<[key := (stop - len (rec_value r), len (rec_value r))]> kd)
    | None => kd
    end
  end.

(** * Properties *)

(** ** Proof automation *)

Ltac divmod := Z.to_euclidean_division_equations; lia.

Ltac bool_hyps :=
  repeat match goal with
  | H : (_ <? _) = true |- _ => apply Z.ltb_lt in H
  | H : (_ <? _) = false |- _ => apply Z.ltb_ge in H
  | H : (_ <=? _) = true |- _ => apply Z.leb_le in H
  | H : (_ <=? _) = false |- _ => apply Z.leb_gt in H
  | H : (_ && _) = true |- _ => apply andb_true_iff in H; destruct H
  | H : negb _ = true |- _ => apply negb_true_iff in H
  | H : negb _ = false |- _ => apply negb_false_iff in H
  end.

Lemma ltb_true a b : a < b -> (a <? b) = true.
Proof. apply Z.ltb_lt. Qed.
Lemma ltb_false a b : b <= a -> (a <? b) = false.
Proof. apply Z.ltb_ge. Qed.
Lemma leb_true a b : a <= b -> (a <=? b) = true.
Proof. apply Z.leb_le. Qed.
Lemma leb_false a b : b < a -> (a <=? b) = false.
Proof. apply Z.leb_gt. Qed.

Ltac decide_tests :=
  repeat first
    [ rewrite ltb_true by divmod
    | rewrite ltb_false by divmod
    | rewrite leb_true by divmod
    | rewrite leb_false by divmod ].

(** ** Bytes and unsigned 32-bit fields *)

Lemma byte_val_range b : 0 <= byte_val b < 256.
Proof.
  unfold byte_val. pose proof (Byte.to_N_bounded b). lia.
Qed.

Lemma byte_val_of z : byte_val (byte_of z) = z mod 256.
Proof.
  unfold byte_val, byte_of.
  assert (Hr : 0 <= z mod 256 < 256) by (apply Z.mod_pos_bound; lia).
  destruct (Byte.of_N (Z.to_N (z mod 256))) as [b|] eqn:E.
  - apply Byte.to_of_N in E. rewrite E. lia.
  - apply Byte.of_N_None_iff in E. lia.
Qed.

Lemma byte_of_val b : byte_of (byte_val b) = b.
Proof.
  unfold byte_of. pose proof (byte_val_range b) as Hr.
  rewrite Z.mod_small by lia. unfold byte_val.
  rewrite N2Z.id, Byte.of_to_N. reflexivity.
Qed.

Lemma byte_val_of_small z : 0 <= z < 256 -> byte_val (byte_of z) = z.
Proof. intros H. rewrite byte_val_of. apply Z.mod_small. lia. Qed.

Lemma is_u32_spec n : is_u32 n = true <-> u32 n.
Proof. unfold is_u32, u32. rewrite andb_true_iff. lia. Qed.

Lemma le_value_bytes n : u32 n -> le_value (le_bytes n) = n.
Proof.
  unfold u32, le_bytes. intros Hn. cbn [le_value].
  rewrite !byte_val_of.
  change (2 ^ 8) with 256. change (2 ^ 16) with 65536.
  change (2 ^ 24) with 16777216. change (2 ^ 32) with 4294967296 in Hn.
  pose proof (Z.div_mod n 256 ltac:(lia)).
  pose proof (Z.mod_pos_bound n 256 ltac:(lia)).
  pose proof (Z.div_mod (n / 256) 256 ltac:(lia)).
  pose proof (Z.mod_pos_bound (n / 256) 256 ltac:(lia)).
  pose proof (Z.div_mod (n / 256 / 256) 256 ltac:(lia)).
  pose proof (Z.mod_pos_bound (n / 256 / 256) 256 ltac:(lia)).
  replace (n / 65536) with (n / 256 / 256) by (rewrite Z.div_div by lia; reflexivity).
  replace (n / 16777216) with (n / 256 / 256 / 256)
    by (rewrite !Z.div_div by lia; reflexivity).
  assert (n / 256 / 256 / 256 < 256).
  { apply Z.div_lt_upper_bound; [lia|].
    apply Z.div_lt_upper_bound; [lia|].
    apply Z.div_lt_upper_bound; lia. }
  assert (0 <= n / 256 / 256 / 256).
  { repeat (apply Z.div_pos; [|lia]). lia. }
  rewrite (Z.mod_small (n / 256 / 256 / 256)) by lia.
  lia.
Qed.

Lemma unpack_pack_I order n : u32 n -> unpack_I order (pack_I order n) = n.
Proof.
  intros Hn. destruct order; cbn [unpack_I pack_I].
  - apply le_value_bytes; assumption.
  - rewrite rev_involutive. apply le_value_bytes; assumption.
Qed.

Lemma pack_I_length order n : length (pack_I order n) = 4%nat.
Proof. destruct order; reflexivity. Qed.

Lemma encode_header_ok order t k v :
  u32 t -> u32 k -> u32 v ->
  encode_header order t k v
  = Ok (pack_I order t ++ pack_I order k ++ pack_I order v).
Proof.
  intros Ht Hk Hv. unfold encode_header, struct_pack_III.
  apply is_u32_spec in Ht, Hk, Hv. rewrite Ht, Hk, Hv. reflexivity.
Qed.

Lemma decode_header_packed order t k v :
  u32 t -> u32 k -> u32 v ->
  decode_header order (pack_I order t ++ pack_I order k ++ pack_I order v)
  = Ok (t, k, v).
Proof.
  intros Ht Hk Hv. unfold decode_header, struct_unpack_III, slice, len.
  rewrite !length_app, !pack_I_length. cbn [Z.eqb Z.of_nat Nat.add].
  change (Z.of_nat 12 =? 12) with true. cbn.
  assert (E4 : forall (a b : bytes), length a = 4%nat -> take 4 (a ++ b) = a).
  { intros a b Ha. rewrite take_app_le by lia. apply take_ge. lia. }
  assert (D4 : forall (a b : bytes), length a = 4%nat -> drop 4 (a ++ b) = b).
  { intros a b Ha. rewrite drop_app_ge by lia. rewrite Ha. reflexivity. }
  change (Z.to_nat (4 - 0)) with 4%nat. change (Z.to_nat 0) with 0%nat.
  change (Z.to_nat (8 - 4)) with 4%nat. change (Z.to_nat 4) with 4%nat.
  change (Z.to_nat (12 - 8)) with 4%nat. change (Z.to_nat 8) with 8%nat.
  rewrite drop_0, (E4 _ _ (pack_I_length order t)).
  rewrite (D4 _ _ (pack_I_length order t)), (E4 _ _ (pack_I_length order k)).
  replace 8%nat with (4 + 4)%nat by reflexivity.
  rewrite <- drop_drop.
  rewrite (D4 _ _ (pack_I_length order t)), (D4 _ _ (pack_I_length order k)).
  rewrite take_ge by (rewrite pack_I_length; lia).
  rewrite !unpack_pack_I by assumption. reflexivity.
Qed.

(** C7: for all unsigned 32-bit triples, [encode_header] returns exactly 12
    bytes and [decode_header] of them is the triple, in either byte order. *)
Theorem header_round_trip (order : byteorder) (timestamp key_size value_size : Z) :
  u32 timestamp -> u32 key_size -> u32 value_size ->
  exists header,
    encode_header order timestamp key_size value_size = Ok header /\
    len header = HEADER_SIZE /\
    decode_header order header = Ok (timestamp, key_size, value_size).
Proof.
  intros Ht Hk Hv. eexists. split; [apply encode_header_ok; assumption|].
  split.
  - unfold len. rewrite !length_app, !pack_I_length. reflexivity.
  - apply decode_header_packed; assumption.
Qed.

Lemma header_round_trip_witness :
  exists header,
    encode_header little 1700000000 6 11 = Ok header /\
    len header = HEADER_SIZE /\
    decode_header little header = Ok (1700000000, 6, 11).
Proof.
  apply (header_round_trip little 1700000000 6 11); unfold u32; lia.
Defined.

(** C9: [decode_header] on fewer than 12 bytes raises (struct.error, the
    header error of the codec); it returns no triple. *)
Theorem decode_header_short (order : byteorder) (data : bytes) :
  len data < HEADER_SIZE ->
  decode_header order data = Raise StructError.
Proof.
  unfold decode_header, struct_unpack_III, HEADER_SIZE. intros H.
  destruct (len data =? 12) eqn:E; [lia | reflexivity].
Qed.

Lemma decode_header_short_witness :
  decode_header big [Byte.x01; Byte.x02; Byte.x03] = Raise StructError.
Proof.
  apply (decode_header_short big [Byte.x01; Byte.x02; Byte.x03]).
  unfold len, HEADER_SIZE. simpl. lia.
Defined.

(** ** UTF-8: decoding inverts encoding, and conversely *)

Lemma utf8_decode_encode_char c cb rest :
  utf8_encode_char c = Ok cb ->
  utf8_decode (cb ++ rest) = option_map (cons c) (utf8_decode rest).
Proof.
  unfold utf8_encode_char.
  destruct (c <? 0) eqn:E0; [discriminate|].
  destruct (c <? 128) eqn:E1.
  { intros [= <-]. bool_hyps. cbn [app utf8_decode].
    rewrite byte_val_of_small by lia. rewrite ltb_true by lia. reflexivity. }
  destruct (c <? 2048) eqn:E2.
  { intros [= <-]. bool_hyps. cbn [app utf8_decode].
    rewrite !byte_val_of_small by divmod.
    unfold is_cont. decide_tests. cbn [andb].
    f_equal. f_equal. divmod. }
  destruct (c <? 65536) eqn:E3.
  { destruct (is_surrogate c) eqn:Es; [discriminate|].
    intros [= <-]. bool_hyps. cbn [app utf8_decode].
    rewrite !byte_val_of_small by divmod.
    unfold is_cont. decide_tests. cbn [andb].
    match goal with |- context [is_surrogate ?e] => replace e with c by divmod end.
    rewrite Es. reflexivity. }
  destruct (c <? 1114112) eqn:E4; [|discriminate].
  intros [= <-]. bool_hyps. cbn [app utf8_decode].
  rewrite !byte_val_of_small by divmod.
  unfold is_cont. decide_tests. cbn [andb].
  f_equal. f_equal. divmod.
Qed.

Lemma utf8_decode_encode s : forall data,
  str_encode s = Ok data -> utf8_decode data = Some s.
Proof.
  induction s as [|c s IH]; intros data; cbn [str_encode].
  - intros [= <-]. reflexivity.
  - destruct (utf8_encode_char c) as [cb|] eqn:Ec; [|discriminate].
    destruct (str_encode s) as [rest|] eqn:Es; [|discriminate].
    cbn. intros [= <-].
    rewrite (utf8_decode_encode_char _ _ _ Ec), (IH _ eq_refl). reflexivity.
Qed.

Ltac restore_byte :=
  match goal with
  | b : Byte.byte |- context [byte_of ?e] =>
      lazymatch e with
      | byte_val _ => fail
      | _ => replace e with (byte_val b) by divmod; rewrite (byte_of_val b)
      end
  end.

Lemma utf8_encode_decode_bounded n : forall data s,
  (length data <= n)%nat ->
  utf8_decode data = Some s -> str_encode s = Ok data.
Proof.
  induction n as [|n IH]; intros [|b0 r0] s Hn; cbn [length] in Hn;
    try lia; cbn [utf8_decode].
  - intros [= <-]. reflexivity.
  - intros [= <-]. reflexivity.
  - pose proof (byte_val_range b0) as R0.
    destruct (byte_val b0 <? 128) eqn:T0.
    { destruct (utf8_decode r0) as [s'|] eqn:D; [|discriminate].
      cbn. intros [= <-]. bool_hyps. cbn [str_encode].
      rewrite (IH r0 s') by (lia || assumption).
      unfold utf8_encode_char. decide_tests. cbn.
      rewrite byte_of_val. reflexivity. }
    destruct (byte_val b0 <? 194) eqn:T1; [discriminate|].
    destruct (byte_val b0 <? 224) eqn:T2.
    { destruct r0 as [|b1 r1]; [discriminate|].
      pose proof (byte_val_range b1) as R1.
      destruct (is_cont (byte_val b1)) eqn:C1; [|discriminate].
      destruct (utf8_decode r1) as [s'|] eqn:D; [|discriminate].
      cbn. intros [= <-]. unfold is_cont in *. bool_hyps. cbn [str_encode].
      cbn [length] in Hn. rewrite (IH r1 s') by (lia || assumption).
      unfold utf8_encode_char. decide_tests. cbn.
      repeat restore_byte. reflexivity. }
    destruct (byte_val b0 <? 240) eqn:T3.
    { destruct r0 as [|b1 [|b2 r2]]; try discriminate.
      pose proof (byte_val_range b1) as R1.
      pose proof (byte_val_range b2) as R2.
      match goal with |- (if ?c then _ else _) = _ -> _ =>
        destruct c eqn:C; [|discriminate] end.
      destruct (utf8_decode r2) as [s'|] eqn:D; [|discriminate].
      cbn. intros [= <-]. unfold is_cont in *. bool_hyps. cbn [str_encode].
      cbn [length] in Hn. rewrite (IH r2 s') by (lia || assumption).
      unfold utf8_encode_char.
      match goal with H : is_surrogate _ = false |- _ => rewrite H end.
      decide_tests. cbn.
      repeat restore_byte. reflexivity. }
    destruct (byte_val b0 <? 245) eqn:T4; [|discriminate].
    destruct r0 as [|b1 [|b2 [|b3 r3]]]; try discriminate.
    pose proof (byte_val_range b1) as R1.
    pose proof (byte_val_range b2) as R2.
    pose proof (byte_val_range b3) as R3.
    match goal with |- (if ?c then _ else _) = _ -> _ =>
      destruct c eqn:C; [|discriminate] end.
    destruct (utf8_decode r3) as [s'|] eqn:D; [|discriminate].
    cbn. intros [= <-]. unfold is_cont in *. bool_hyps. cbn [str_encode].
    cbn [length] in Hn. rewrite (IH r3 s') by (lia || assumption).
    unfold utf8_encode_char. decide_tests. cbn.
    repeat restore_byte. reflexivity.
Qed.

Lemma utf8_encode_decode data s :
  utf8_decode data = Some s -> str_encode s = Ok data.
Proof. apply (utf8_encode_decode_bounded (length data)). lia. Qed.

Lemma bytes_decode_ok data s :
  bytes_decode data = Ok s <-> str_encode s = Ok data.
Proof.
  unfold bytes_decode. split.
  - destruct (utf8_decode data) as [s'|] eqn:D; [|discriminate].
    intros [= <-]. apply utf8_encode_decode, D.
  - intros E. rewrite (utf8_decode_encode _ _ E). reflexivity.
Qed.

Lemma bytes_decode_raise data :
  ~ valid_utf8 data -> bytes_decode data = Raise UnicodeDecodeError.
Proof.
  intros Hn. unfold bytes_decode.
  destruct (utf8_decode data) as [s|] eqn:D; [|reflexivity].
  exfalso. apply Hn. exists s. apply utf8_encode_decode, D.
Qed.

Lemma bytes_decode_raise_inv data e :
  bytes_decode data = Raise e -> e = UnicodeDecodeError /\ ~ valid_utf8 data.
Proof.
  unfold bytes_decode.
  destruct (utf8_decode data) as [s|] eqn:D; [discriminate|].
  intros [= <-]. split; [reflexivity|]. intros [s E].
  rewrite (utf8_decode_encode _ _ E) in D. discriminate.
Qed.

Lemma utf8_encode_char_scalar c cb :
  utf8_encode_char c = Ok cb -> scalar c /\ (1 <= length cb <= 4)%nat.
Proof.
  unfold utf8_encode_char, scalar, is_surrogate.
  repeat match goal with
  | |- context [if ?b then _ else _] => destruct b eqn:?
  end; try discriminate; intros [= <-]; bool_hyps; cbn [length];
  (split; [|lia]); lia.
Qed.

Lemma str_encode_text s : forall data,
  str_encode s = Ok data -> text s /\ len s <= len data <= 4 * len s.
Proof.
  unfold text, len.
  induction s as [|c s IH]; intros data; cbn [str_encode].
  - intros [= <-]. split; [constructor | cbn; lia].
  - destruct (utf8_encode_char c) as [cb|] eqn:Ec; [|discriminate].
    destruct (str_encode s) as [rest|] eqn:Es; [|discriminate].
    cbn. intros [= <-].
    destruct (utf8_encode_char_scalar _ _ Ec) as [Hc Hl].
    destruct (IH _ eq_refl) as [Hs Hr].
    split; [constructor; assumption|].
    rewrite length_app. cbn [length]. lia.
Qed.

Lemma text_encodes s : text s -> exists data, str_encode s = Ok data.
Proof.
  unfold text. induction 1 as [|c s Hc Hs [rest IH]]; cbn [str_encode].
  - eexists; reflexivity.
  - rewrite IH. unfold scalar in Hc. unfold utf8_encode_char, is_surrogate.
    rewrite (ltb_false c 0) by lia.
    repeat match goal with
    | |- context [if ?b then _ else _] => destruct b eqn:?
    end; bool_hyps; try lia; eexists; reflexivity.
Qed.

Lemma str_encode_ascii s :
  ascii_text s -> str_encode s = Ok (map byte_of s).
Proof.
  unfold ascii_text. induction 1 as [|c s Hc Hs IH]; cbn [str_encode map].
  - reflexivity.
  - rewrite IH. unfold utf8_encode_char.
    rewrite (ltb_false c 0), (ltb_true c 128) by lia. reflexivity.
Qed.

Lemma str_encode_ascii_len s data :
  ascii_text s -> str_encode s = Ok data -> len data = len s.
Proof.
  intros Ha. rewrite (str_encode_ascii _ Ha). intros [= <-].
  unfold len. rewrite length_map. reflexivity.
Qed.

(** ** Slices of a record *)

Lemma len_app {A} (a b : list A) : len (a ++ b) = len a + len b.
Proof. unfold len. rewrite length_app. lia. Qed.

Lemma len_nonneg {A} (a : list A) : 0 <= len a.
Proof. unfold len. lia. Qed.

Lemma slice_prefix {A} (h rest : list A) : slice (h ++ rest) 0 (len h) = h.
Proof.
  unfold slice, len. rewrite Z.sub_0_r, Nat2Z.id.
  change (Z.to_nat 0) with 0%nat. rewrite drop_0. apply take_app_length.
Qed.

Lemma slice_middle {A} (h k v : list A) :
  slice (h ++ k ++ v) (len h) (len h + len k) = k.
Proof.
  unfold slice, len.
  replace (Z.of_nat (length h) + Z.of_nat (length k) - Z.of_nat (length h))
    with (Z.of_nat (length k)) by lia.
  rewrite !Nat2Z.id, drop_app_length. apply take_app_length.
Qed.

Lemma slice_from_suffix {A} (h k v : list A) :
  slice_from (h ++ k ++ v) (len h + len k) = v.
Proof.
  unfold slice_from, len. rewrite <- Nat2Z.inj_add, Nat2Z.id.
  rewrite app_assoc, <- length_app. apply drop_app_length.
Qed.

Lemma len_slice_header {A} (data : list A) :
  HEADER_SIZE <= len data -> len (slice data 0 HEADER_SIZE) = HEADER_SIZE.
Proof.
  unfold slice, len, HEADER_SIZE. intros H.
  change (Z.to_nat (12 - 0)) with 12%nat. change (Z.to_nat 0) with 0%nat.
  rewrite drop_0, length_take. lia.
Qed.

Lemma decode_header_total order (h : bytes) :
  len h = HEADER_SIZE ->
  exists t k v, decode_header order h = Ok (t, k, v).
Proof.
  unfold decode_header, struct_unpack_III, HEADER_SIZE. intros ->.
  cbn. eauto.
Qed.

Lemma decode_header_len order (h : bytes) r :
  decode_header order h = Ok r -> len h = HEADER_SIZE.
Proof.
  unfold decode_header, struct_unpack_III, HEADER_SIZE.
  destruct (len h =? 12) eqn:E; [|discriminate].
  intros _. apply Z.eqb_eq, E.
Qed.

(** ** What [encode_kv] writes and what [decode_kv] reads *)

Lemma encode_kv_inv order ts key value sz data :
  encode_kv order ts key value = Ok (sz, data) ->
  exists k v,
    str_encode key = Ok k /\ str_encode value = Ok v /\
    u32 ts /\ u32 (len key) /\ u32 (len value) /\
    sz = HEADER_SIZE + len k + len v /\
    data = (pack_I order ts ++ pack_I order (len key) ++ pack_I order (len value))
             ++ k ++ v.
Proof.
  unfold encode_kv, encode_header, struct_pack_III.
  destruct (is_u32 ts) eqn:Ht; [|discriminate].
  destruct (is_u32 (len key)) eqn:Hk; [|discriminate].
  destruct (is_u32 (len value)) eqn:Hv; [|discriminate].
  cbn. destruct (str_encode key) as [k|]; [|discriminate].
  destruct (str_encode value) as [v|]; [|discriminate].
  cbn. intros [= <- <-]. exists k, v.
  rewrite len_app. apply is_u32_spec in Ht, Hk, Hv.
  repeat split; try assumption; try apply Ht; try apply Hk; try apply Hv; lia.
Qed.

Lemma encode_kv_ok order ts key value k v :
  u32 ts -> u32 (len key) -> u32 (len value) ->
  str_encode key = Ok k -> str_encode value = Ok v ->
  encode_kv order ts key value
  = Ok (HEADER_SIZE + len (k ++ v),
        (pack_I order ts ++ pack_I order (len key) ++ pack_I order (len value))
          ++ k ++ v).
Proof.
  intros Ht Hk Hv Ek Ev. unfold encode_kv.
  rewrite encode_header_ok by assumption. cbn.
  rewrite Ek, Ev. reflexivity.
Qed.

Lemma len_header order t k v :
  len (pack_I order t ++ pack_I order k ++ pack_I order v) = HEADER_SIZE.
Proof. unfold len. rewrite !length_app, !pack_I_length. reflexivity. Qed.

(** A buffer that starts with a header announcing [len k] key bytes is
    split into that header, [k] and everything after. *)
Lemma decode_kv_parts order t vs (k v : bytes) :
  u32 t -> u32 (len k) -> u32 vs ->
  decode_kv order
    ((pack_I order t ++ pack_I order (len k) ++ pack_I order vs) ++ k ++ v)
  = (key ← bytes_decode k; value ← bytes_decode v; Ok (t, key, value)).
Proof.
  intros Ht Hk Hv. unfold decode_kv.
  pose proof (len_header order t (len k) vs) as Hh.
  rewrite <- Hh at 1. rewrite slice_prefix.
  rewrite decode_header_packed by assumption. cbn.
  rewrite <- Hh. rewrite slice_middle, slice_from_suffix. reflexivity.
Qed.

Lemma decode_kv_ok_inv order data t key value ts ks vs :
  decode_header order (slice data 0 HEADER_SIZE) = Ok (ts, ks, vs) ->
  decode_kv order data = Ok (t, key, value) ->
  t = ts /\
  str_encode key = Ok (slice data HEADER_SIZE (HEADER_SIZE + ks)) /\
  str_encode value = Ok (slice_from data (HEADER_SIZE + ks)).
Proof.
  intros Dh. unfold decode_kv. rewrite Dh. cbn [mbind result_bind].
  destruct (bytes_decode (slice data HEADER_SIZE (HEADER_SIZE + ks)))
    as [k|] eqn:Bk; [|discriminate].
  cbn [mbind result_bind].
  destruct (bytes_decode (slice_from data (HEADER_SIZE + ks)))
    as [v|] eqn:Bv; [|discriminate].
  cbn [mbind result_bind]. intros [= <- <- <-].
  apply bytes_decode_ok in Bk, Bv. auto.
Qed.

Lemma decode_encode_kv_ascii_key order ts key value :
  u32 ts -> u32 (len key) -> u32 (len value) ->
  ascii_text key -> text value ->
  exists sz data,
    encode_kv order ts key value = Ok (sz, data) /\
    decode_kv order data = Ok (ts, key, value).
Proof.
  intros Ht Hk Hv Ha Hx.
  destruct (text_encodes _ Hx) as [v Ev].
  pose proof (str_encode_ascii _ Ha) as Ek.
  do 2 eexists. split; [apply encode_kv_ok; eassumption|].
  rewrite <- (str_encode_ascii_len _ _ Ha Ek) in Hk |- *.
  rewrite decode_kv_parts by assumption.
  apply bytes_decode_ok in Ek, Ev. rewrite Ek. cbn. rewrite Ev. reflexivity.
Qed.

(** C1: with a key outside ASCII the bytes written by [encode_kv] do not
    decode to the triple: the header counts the one code point of the key,
    its encoding has two bytes, and [decode_kv] cuts it in the middle. *)
Theorem encode_decode_kv_non_ascii_key (order : byteorder) :
  exists data,
    encode_kv order 0 [0xE9] [0x61] = Ok (15, data) /\
    decode_kv order data = Raise UnicodeDecodeError.
Proof.
  destruct order; eexists; split; vm_compute; reflexivity.
Qed.

(** C4: the header written by [encode_kv] holds the numbers of code points
    of the key and of the value, here 1 and 1, while the payloads that
    follow take 2 and 3 bytes. *)
Theorem encode_kv_header_counts_code_points (order : byteorder) :
  exists data k v,
    encode_kv order 0 [0xE9] [0x20AC] = Ok (17, data) /\
    decode_header order (slice data 0 HEADER_SIZE) = Ok (0, 1, 1) /\
    str_encode [0xE9] = Ok k /\ str_encode [0x20AC] = Ok v /\
    slice_from data HEADER_SIZE = k ++ v /\
    len k = 2 /\ len v = 3.
Proof.
  destruct order; do 3 eexists; repeat split; vm_compute; reflexivity.
Qed.

Lemma encode_kv_header order ts key value sz data :
  encode_kv order ts key value = Ok (sz, data) ->
  decode_header order (slice data 0 HEADER_SIZE) = Ok (ts, len key, len value).
Proof.
  intros E. apply encode_kv_inv in E.
  destruct E as (k & v & _ & _ & Ht & Hk & Hv & _ & ->).
  rewrite <- (len_header order ts (len key) (len value)) at 1.
  rewrite slice_prefix. apply decode_header_packed; assumption.
Qed.

(** A text takes as many bytes as it has code points exactly when it is
    ASCII. *)
Lemma str_encode_len_ascii s : forall data,
  str_encode s = Ok data -> (len data = len s <-> ascii_text s).
Proof.
  intros data E. split; [|intros Ha; eapply str_encode_ascii_len; eassumption].
  revert data E. unfold ascii_text, len.
  induction s as [|c s IH]; intros data; cbn [str_encode]; [constructor|].
  destruct (utf8_encode_char c) as [cb|] eqn:Ec; [|discriminate].
  destruct (str_encode s) as [rest|] eqn:Es; [|discriminate].
  cbn [mbind result_bind]. intros [= <-].
  rewrite length_app. cbn [length]. intros Hl.
  destruct (utf8_encode_char_scalar _ _ Ec) as [_ Hcb].
  destruct (str_encode_text _ _ Es) as [_ Hrest]. unfold len in Hrest.
  constructor.
  - assert (length cb = 1%nat) as L1 by lia.
    revert Ec L1. unfold utf8_encode_char.
    repeat match goal with
    | |- context [if ?b then _ else _] => destruct b eqn:?
    end; try discriminate; intros [= <-]; cbn [length]; lia.
  - apply (IH rest eq_refl). lia.
Qed.

(** The round trip through [encode_kv] and [decode_kv] gives the triple
    back exactly when the key is ASCII. *)
Lemma round_trip_iff_ascii_key order ts key value sz data :
  encode_kv order ts key value = Ok (sz, data) ->
  (decode_kv order data = Ok (ts, key, value) <-> ascii_text key).
Proof.
  intros E. pose proof (encode_kv_header _ _ _ _ _ _ E) as Dh.
  apply encode_kv_inv in E.
  destruct E as (k & v & Ek & Ev & Ht & Hk & Hv & _ & ->).
  split.
  - intros D.
    destruct (decode_kv_ok_inv _ _ _ _ _ _ _ _ Dh D) as (_ & Ek' & _).
    rewrite Ek in Ek'. injection Ek' as Ek'.
    apply (str_encode_len_ascii _ _ Ek).
    destruct (str_encode_text _ _ Ek) as [_ [Hlo _]].
    apply Z.le_antisymm; [|exact Hlo].
    rewrite Ek' at 1.
    rewrite <- (len_header order ts (len key) (len value)).
    unfold slice, len. rewrite length_take. lia.
  - intros Ha.
    rewrite <- (str_encode_ascii_len _ _ Ha Ek) in Hk |- *.
    rewrite decode_kv_parts by assumption.
    apply bytes_decode_ok in Ek, Ev. rewrite Ek. cbn. rewrite Ev. reflexivity.
Qed.



(** [decode_kv] accepts a buffer whose header announces 1 + 1 bytes and
    that holds 3 bytes after the header: the value is all that follows the
    key, and [value_size] is not looked at. *)
Lemma decode_kv_accepts_other_length :
  let data := (pack_I little 0 ++ pack_I little 1 ++ pack_I little 1)
                ++ [Byte.x61; Byte.x62; Byte.x63] in
  decode_header little (slice data 0 HEADER_SIZE) = Ok (0, 1, 1) /\
  len data - HEADER_SIZE <> 1 + 1 /\
  decode_kv little data = Ok (0, [0x61], [0x62; 0x63]).
Proof. vm_compute. repeat split; congruence. Qed.

(** C5, as the code has it: on a buffer of at least 12 bytes the header is
    read, the key is the next [key_size] bytes and the value all the bytes
    after them; [decode_kv] raises UnicodeDecodeError when one of the two is
    not valid UTF-8 and returns the timestamp and the two texts otherwise,
    in particular on every buffer of exactly 12 + key_size + value_size
    bytes with valid UTF-8 in it.  [value_size] is never compared with the
    number of bytes. *)
Theorem decode_kv_outcome (order : byteorder) (data : bytes) :
  HEADER_SIZE <= len data ->
  exists timestamp key_size value_size,
    decode_header order (slice data 0 HEADER_SIZE)
      = Ok (timestamp, key_size, value_size) /\
    let key := slice data HEADER_SIZE (HEADER_SIZE + key_size) in
    let value := slice_from data (HEADER_SIZE + key_size) in
    (~ valid_utf8 key \/ ~ valid_utf8 value ->
       decode_kv order data = Raise UnicodeDecodeError) /\
    (forall k v, str_encode k = Ok key -> str_encode v = Ok value ->
       decode_kv order data = Ok (timestamp, k, v)).
Proof.
  intros Hlen.
  destruct (decode_header_total order _ (len_slice_header _ Hlen))
    as (t & ks & vs & Hh).
  exists t, ks, vs. split; [exact Hh|]. cbn zeta. unfold decode_kv.
  rewrite Hh. cbn. split.
  - intros [Hk | Hv].
    + rewrite (bytes_decode_raise _ Hk). reflexivity.
    + rewrite (bytes_decode_raise _ Hv).
      destruct (bytes_decode (slice data HEADER_SIZE (HEADER_SIZE + ks)))
        as [k|e] eqn:Ek; [reflexivity|].
      apply bytes_decode_raise_inv in Ek. destruct Ek as [-> _]. reflexivity.
  - intros k v Ek Ev. apply bytes_decode_ok in Ek, Ev.
    rewrite Ek. cbn. rewrite Ev. reflexivity.
Qed.

Lemma decode_kv_outcome_witness :
  let data := (pack_I big 7 ++ pack_I big 1 ++ pack_I big 2)
                ++ [Byte.x6b; Byte.xc3; Byte.xa9] in
  exists timestamp key_size value_size,
    decode_header big (slice data 0 HEADER_SIZE)
      = Ok (timestamp, key_size, value_size) /\
    let key := slice data HEADER_SIZE (HEADER_SIZE + key_size) in
    let value := slice_from data (HEADER_SIZE + key_size) in
    (~ valid_utf8 key \/ ~ valid_utf8 value ->
       decode_kv big data = Raise UnicodeDecodeError) /\
    (forall k v, str_encode k = Ok key -> str_encode v = Ok value ->
       decode_kv big data = Ok (timestamp, k, v)).
Proof.
  apply (decode_kv_outcome big
           ((pack_I big 7 ++ pack_I big 1 ++ pack_I big 2)
              ++ [Byte.x6b; Byte.xc3; Byte.xa9])).
  vm_compute. discriminate.
Defined.

Lemma u32_bounds n : 0 <= n < 4294967296 -> u32 n.
Proof. unfold u32. change (2 ^ 32) with 4294967296. trivial. Qed.

(** ** The file object *)

Lemma file_seek_end f :
  file_seek 0 2 f = Ok {| content := content f; position := len (content f) |}.
Proof.
  unfold file_seek. cbn [Z.eqb]. cbv iota.
  rewrite Z.add_0_r, ltb_false by apply len_nonneg. reflexivity.
Qed.

Lemma file_seek_start f :
  file_seek 0 0 f = Ok {| content := content f; position := 0 |}.
Proof. reflexivity. Qed.

Lemma file_seek_set pos f :
  0 <= pos ->
  file_seek pos 0 f = Ok {| content := content f; position := pos |}.
Proof.
  intros H. unfold file_seek. cbn [Z.eqb]. cbv iota.
  rewrite Z.add_0_l, ltb_false by assumption. reflexivity.
Qed.

(** Reading [data] that lies at the position, with anything after it. *)
Lemma file_read_at (pre data post : bytes) :
  file_read (len data) {| content := pre ++ data ++ post; position := len pre |}
  = (data, {| content := pre ++ data ++ post; position := len pre + len data |}).
Proof.
  unfold file_read, slice_from. cbn [content position].
  rewrite ltb_false by apply len_nonneg.
  unfold len. rewrite !Nat2Z.id, drop_app_length, take_app_length.
  reflexivity.
Qed.

(** Reading more than is left returns what is left. *)
Lemma file_read_rest (pre data : bytes) n :
  len data <= n ->
  file_read n {| content := pre ++ data; position := len pre |}
  = (data, {| content := pre ++ data; position := len pre + len data |}).
Proof.
  intros H. pose proof (len_nonneg data).
  unfold file_read, slice_from. cbn [content position].
  rewrite ltb_false by lia.
  unfold len in *. rewrite Nat2Z.id, drop_app_length.
  rewrite take_ge by lia. reflexivity.
Qed.

Lemma file_read_facts n f :
  0 <= n -> 0 <= position f ->
  content (file_read n f).2 = content f /\
  position (file_read n f).2 = position f + len (file_read n f).1 /\
  len (file_read n f).1 = Z.min n (Z.max 0 (len (content f) - position f)).
Proof.
  intros Hn Hp. unfold file_read, slice_from. cbn [fst snd content position].
  rewrite ltb_false by assumption.
  repeat split. unfold len. rewrite length_take, length_drop. lia.
Qed.

(** ** get and set *)

Lemma get_missing key self :
  DiskStorage.key_dir self !! key = None ->
  DiskStorage.get key self = (Ok [], self).
Proof. intros H. unfold DiskStorage.get. rewrite H. reflexivity. Qed.

Lemma init_empty order :
  DiskStorage.init order []
  = Some (Ok {| DiskStorage.file := {| content := []; position := 0 |};
                DiskStorage.key_dir := ∅ |}).
Proof. reflexivity. Qed.

(** C8: [get] of a key that the key directory does not hold returns the
    empty string and leaves the object as it was; on the object built over
    an empty file this is so for every key. *)
Theorem get_unknown_key (order : byteorder) :
  (forall key self,
      DiskStorage.key_dir self !! key = None ->
      DiskStorage.get key self = (Ok [], self)) /\
  (exists fresh,
      DiskStorage.init order [] = Some (Ok fresh) /\
      forall key, DiskStorage.get key fresh = (Ok [], fresh)).
Proof.
  split; [intros key self; apply get_missing|].
  eexists. split; [apply init_empty|].
  intros key. apply get_missing. apply lookup_empty.
Qed.

Lemma get_unknown_key_witness :
  DiskStorage.get [0x6D; 0x69; 0x73; 0x73]
    {| DiskStorage.file := {| content := []; position := 0 |};
       DiskStorage.key_dir := ∅ |}
  = (Ok [], {| DiskStorage.file := {| content := []; position := 0 |};
               DiskStorage.key_dir := ∅ |}).
Proof.
  apply (proj1 (get_unknown_key little)). reflexivity.
Defined.

(** What a successful [set] does. *)
Lemma set_ok order w key value sz data self :
  encode_kv order (time_time w) key value = Ok (sz, data) ->
  write_ok w = true ->
  DiskStorage.set order w key value self
  = (Ok tt,
     {| DiskStorage.file :=
          {| content := content (DiskStorage.file self) ++ data;
             position := len (content (DiskStorage.file self) ++ data) |};
        DiskStorage.key_dir :=
          <[key := (position (DiskStorage.file self) + sz - len value, len value)]>
            (DiskStorage.key_dir self) |}).
Proof.
  intros E W. unfold DiskStorage.set, file_write, file_tell. rewrite E.
  cbn [DiskStorage.file DiskStorage.key_dir]. rewrite W. reflexivity.
Qed.

Lemma file_read_here f (pre data post : bytes) n :
  content f = pre ++ data ++ post -> position f = len pre -> n = len data ->
  file_read n f = (data, {| content := content f; position := position f + n |}).
Proof.
  destruct f as [c p]. cbn [content position]. intros -> -> ->.
  apply file_read_at.
Qed.

Lemma file_read_tail f (pre data : bytes) n :
  content f = pre ++ data -> position f = len pre -> len data <= n ->
  file_read n f
  = (data, {| content := content f; position := position f + len data |}).
Proof.
  destruct f as [c p]. cbn [content position]. intros -> -> H.
  apply file_read_rest, H.
Qed.

(** ** The handle stays at the end *)

Lemma init_at_end order disk self :
  DiskStorage.init order disk = Some (Ok self) -> at_end self.
Proof.
  unfold DiskStorage.init.
  match goal with |- match ?l with _ => _ end = _ -> _ => destruct l as [[s|e]|] end;
    try discriminate.
  cbn [mbind result_bind]. rewrite file_seek_end.
  cbn [mbind result_bind]. intros [= <-]. reflexivity.
Qed.

Lemma set_at_end order w key value self :
  at_end self -> at_end (DiskStorage.set order w key value self).2.
Proof.
  unfold at_end, DiskStorage.set, file_write. intros H.
  destruct (encode_kv order (time_time w) key value) as [[sz data]|e];
    [|exact H].
  cbn [DiskStorage.file DiskStorage.key_dir].
  destruct (write_ok w); reflexivity.
Qed.

Lemma get_at_end key self :
  at_end self -> at_end (DiskStorage.get key self).2.
Proof.
  unfold at_end, DiskStorage.get. intros H.
  destruct (DiskStorage.key_dir self !! key) as [[value_pos value_sz]|];
    [|exact H].
  destruct (file_seek value_pos 0 (DiskStorage.file self)) as [f1|e];
    [|exact H].
  destruct (file_read value_sz f1) as [value f2].
  rewrite file_seek_end. reflexivity.
Qed.

Lemma opened_at_end order self : DiskStorage.opened order self -> at_end self.
Proof.
  induction 1 as [disk self Hi | w key value self _ IH | key self _ IH].
  - eapply init_at_end, Hi.
  - apply set_at_end, IH.
  - apply get_at_end, IH.
Qed.

Lemma file_seek_content offset whence f f' :
  file_seek offset whence f = Ok f' -> content f' = content f.
Proof.
  unfold file_seek.
  match goal with |- (if ?b then _ else _) = _ -> _ => destruct b end;
    [discriminate|].
  intros [= <-]. reflexivity.
Qed.

(** [get] leaves the file and the key directory as they were. *)
Lemma get_content key self :
  content (DiskStorage.file (DiskStorage.get key self).2)
    = content (DiskStorage.file self) /\
  DiskStorage.key_dir (DiskStorage.get key self).2 = DiskStorage.key_dir self.
Proof.
  unfold DiskStorage.get.
  destruct (DiskStorage.key_dir self !! key) as [[value_pos value_sz]|];
    [|split; reflexivity].
  destruct (file_seek value_pos 0 (DiskStorage.file self)) as [f1|e] eqn:E;
    [|split; reflexivity].
  apply file_seek_content in E.
  destruct (file_read value_sz f1) as [value f2] eqn:R.
  rewrite file_seek_end. cbn [snd DiskStorage.file DiskStorage.key_dir content].
  split; [|reflexivity].
  rewrite <- E. unfold file_read in R. injection R as _ <-. reflexivity.
Qed.

(** Reading back what [set] has just written, when the value takes as many
    bytes as it has code points. *)
Lemma get_after_set order w key value sz data self :
  at_end self ->
  encode_kv order (time_time w) key value = Ok (sz, data) ->
  write_ok w = true ->
  ascii_text value ->
  (DiskStorage.get key (DiskStorage.set order w key value self).2).1 = Ok value.
Proof.
  intros Hend E W Ha. rewrite (set_ok _ _ _ _ _ _ _ E W).
  apply encode_kv_inv in E.
  destruct E as (k & v & Ek & Ev & Ht & Hk & Hv & -> & ->).
  pose proof (str_encode_ascii_len _ _ Ha Ev) as Hlen.
  set (h := pack_I order (time_time w) ++ pack_I order (len key)
              ++ pack_I order (len value)).
  pose proof (len_header order (time_time w) (len key) (len value)) as Hh.
  fold h in Hh.
  unfold DiskStorage.get. cbn [snd DiskStorage.key_dir DiskStorage.file].
  rewrite lookup_insert_eq. rewrite Hend.
  pose proof (len_nonneg (content (DiskStorage.file self))).
  pose proof (len_nonneg k).
  rewrite file_seek_set by (unfold HEADER_SIZE; lia).
  cbn [content].
  erewrite (file_read_tail _ (content (DiskStorage.file self) ++ h ++ k) v).
  - rewrite file_seek_end. cbn [fst].
    apply bytes_decode_ok. exact Ev.
  - cbn [content]. rewrite <- !app_assoc. reflexivity.
  - cbn [position]. rewrite !len_app. lia.
  - lia.
Qed.

(** When [write] raises after 4096 of the 10013 bytes of a record have
    reached the file, the file is no longer what it was and the entry that
    [set] has made, (13, 10000), starts inside it. *)
Lemma set_write_failure_leaves_part :
  let w := {| time_time := 0; write_ok := false; write_partial := 4096 |} in
  let fresh := {| DiskStorage.file := {| content := []; position := 0 |};
                  DiskStorage.key_dir := ∅ |} in
  let after := DiskStorage.set little w [0x6B] (repeat 0x76 (100 * 100)) fresh in
  DiskStorage.init little [] = Some (Ok fresh) /\
  after.1 = Raise OSError /\
  DiskStorage.key_dir after.2 !! [0x6B] = Some (13, 10000) /\
  len (content (DiskStorage.file after.2)) = 4096 /\
  DiskStorage.file after.2 <> DiskStorage.file fresh /\
  13 < len (content (DiskStorage.file after.2)).
Proof.
  cbv zeta. split; [reflexivity|].
  assert (E : DiskStorage.set little
                {| time_time := 0; write_ok := false; write_partial := 4096 |}
                [0x6B] (repeat 0x76 (100 * 100))
                {| DiskStorage.file := {| content := []; position := 0 |};
                   DiskStorage.key_dir := ∅ |}
              = (Raise OSError,
                 {| DiskStorage.file :=
                      {| content :=
                           (pack_I little 0 ++ pack_I little 1
                              ++ pack_I little 10000)
                             ++ [Byte.x6b] ++ repeat Byte.x76 4083;
                         position := 4096 |};
                    DiskStorage.key_dir := {[ [0x6B] := (13, 10000) ]} |})).
  { vm_compute. reflexivity. }
  rewrite E. cbn [fst snd DiskStorage.file DiskStorage.key_dir content].
  split; [reflexivity|].
  split; [apply lookup_singleton_eq|].
  split; [vm_compute; reflexivity|].
  split; [discriminate|].
  vm_compute. reflexivity.
Qed.

(** C10, as the code has it: [set] puts the new entry in the key directory
    before it calls [write].  When [write] raises, [set] raises with the
    entry already there.  The file then holds its earlier bytes followed by
    the part of the record that had reached it: when none had, the file is
    as before and the entry points past its end; whenever the record is not
    all there, the entry reaches past the end of the file. *)
Theorem set_write_failure (order : byteorder) (w : env) (key value : str)
    (sz : Z) (data : bytes) (self : DiskStorage.t) :
  DiskStorage.opened order self ->
  encode_kv order (time_time w) key value = Ok (sz, data) ->
  write_ok w = false ->
  exists self' value_pos,
    DiskStorage.set order w key value self = (Raise OSError, self') /\
    DiskStorage.key_dir self'
      = <[key := (value_pos, len value)]> (DiskStorage.key_dir self) /\
    DiskStorage.key_dir self' !! key = Some (value_pos, len value) /\
    value_pos = file_tell (DiskStorage.file self) + sz - len value /\
    content (DiskStorage.file self')
      = content (DiskStorage.file self) ++ take (write_partial w) data /\
    (write_partial w = 0%nat ->
       DiskStorage.file self' = DiskStorage.file self /\
       len (content (DiskStorage.file self')) < value_pos) /\
    (Z.of_nat (write_partial w) < sz ->
       len (content (DiskStorage.file self')) < value_pos + len value).
Proof.
  intros Ho E W. pose proof (opened_at_end _ _ Ho) as Hend.
  unfold DiskStorage.set, file_write. rewrite E.
  cbn [DiskStorage.file DiskStorage.key_dir]. rewrite W.
  do 2 eexists. split; [reflexivity|].
  cbn [DiskStorage.file DiskStorage.key_dir content].
  split; [reflexivity|]. split; [apply lookup_insert_eq|].
  split; [reflexivity|]. split; [reflexivity|].
  unfold file_tell. rewrite Hend.
  apply encode_kv_inv in E.
  destruct E as (k & v & Ek & Ev & _ & _ & _ & -> & _).
  pose proof (str_encode_text _ _ Ev) as [_ [Hlo _]].
  pose proof (len_nonneg k).
  split.
  - intros ->. cbn [take]. rewrite app_nil_r. split.
    + destruct self as [[c p] kd]. unfold at_end in Hend.
      cbn [DiskStorage.file content position] in *. rewrite Hend. reflexivity.
    + unfold HEADER_SIZE. lia.
  - intros Hpart. rewrite len_app. unfold len at 2. rewrite length_take.
    unfold HEADER_SIZE in *. lia.
Qed.

Lemma set_write_failure_witness :
  let w := {| time_time := 0; write_ok := false; write_partial := 13 |} in
  let self := {| DiskStorage.file := {| content := []; position := 0 |};
                 DiskStorage.key_dir := ∅ |} in
  exists self' value_pos,
    DiskStorage.set little w [0x6B] [0x76; 0x77] self = (Raise OSError, self') /\
    DiskStorage.key_dir self'
      = <[ [0x6B] := (value_pos, len [0x76; 0x77])]> (DiskStorage.key_dir self) /\
    DiskStorage.key_dir self' !! [0x6B] = Some (value_pos, len [0x76; 0x77]) /\
    value_pos = file_tell (DiskStorage.file self) + 15 - len [0x76; 0x77] /\
    content (DiskStorage.file self')
      = content (DiskStorage.file self)
          ++ take (write_partial w)
               [Byte.x00; Byte.x00; Byte.x00; Byte.x00; Byte.x01; Byte.x00;
                Byte.x00; Byte.x00; Byte.x02; Byte.x00; Byte.x00; Byte.x00;
                Byte.x6b; Byte.x76; Byte.x77] /\
    (write_partial w = 0%nat ->
       DiskStorage.file self' = DiskStorage.file self /\
       len (content (DiskStorage.file self')) < value_pos) /\
    (Z.of_nat (write_partial w) < 15 ->
       len (content (DiskStorage.file self')) < value_pos + len [0x76; 0x77]).
Proof.
  cbv zeta.
  eapply (set_write_failure little
            {| time_time := 0; write_ok := false; write_partial := 13 |}
            [0x6B] [0x76; 0x77] 15).
  - apply (DiskStorage.opened_init little []). reflexivity.
  - vm_compute. reflexivity.
  - reflexivity.
Defined.

(** C3: on any opened engine whose two writes go through, after
    [set("a","1")] and [set("a","2")] the value read for "a" is "2", and the
    second call has added the bytes of its record, all of them and nothing
    else, after the bytes that were there. *)
Theorem last_write_wins (order : byteorder) (w1 w2 : env) (self : DiskStorage.t) :
  DiskStorage.opened order self ->
  u32 (time_time w1) -> u32 (time_time w2) ->
  write_ok w1 = true -> write_ok w2 = true ->
  let first := DiskStorage.set order w1 [0x61] [0x31] self in
  let second := DiskStorage.set order w2 [0x61] [0x32] first.2 in
  first.1 = Ok tt /\ second.1 = Ok tt /\
  (DiskStorage.get [0x61] second.2).1 = Ok [0x32] /\
  exists sz data,
    encode_kv order (time_time w2) [0x61] [0x32] = Ok (sz, data) /\
    sz = len data /\
    content (DiskStorage.file second.2)
      = content (DiskStorage.file first.2) ++ data /\
    len (content (DiskStorage.file second.2))
      = len (content (DiskStorage.file first.2)) + sz.
Proof.
  intros Ho Ht1 Ht2 W1 W2. cbv zeta.
  assert (Ha1 : ascii_text [0x31]) by (repeat constructor; lia).
  assert (Ha2 : ascii_text [0x32]) by (repeat constructor; lia).
  assert (Hk : ascii_text [0x61]) by (repeat constructor; lia).
  assert (Hu : u32 (len [0x61])) by (apply u32_bounds; unfold len; cbn [length]; lia).
  assert (E1 := encode_kv_ok order (time_time w1) [0x61] [0x31] _ _ Ht1 Hu Hu
                  (str_encode_ascii _ Hk) (str_encode_ascii _ Ha1)).
  assert (E2 := encode_kv_ok order (time_time w2) [0x61] [0x32] _ _ Ht2 Hu Hu
                  (str_encode_ascii _ Hk) (str_encode_ascii _ Ha2)).
  pose proof (opened_at_end _ _ Ho) as Hend.
  pose proof (set_at_end order w1 [0x61] [0x31] self Hend) as Hend1.
  split; [rewrite (set_ok _ _ _ _ _ _ _ E1 W1); reflexivity|].
  split; [rewrite (set_ok _ _ _ _ _ _ _ E2 W2); reflexivity|].
  split; [apply (get_after_set _ _ _ _ _ _ _ Hend1 E2 W2 Ha2)|].
  do 2 eexists. split; [exact E2|].
  rewrite (set_ok _ _ _ _ _ _ (DiskStorage.set order w1 [97] [49] self).2 E2 W2).
  cbn [snd DiskStorage.file content].
  split; [|split; [reflexivity|]].
  - unfold len, HEADER_SIZE. rewrite !length_app, !pack_I_length. lia.
  - unfold len, HEADER_SIZE. rewrite !length_app, !pack_I_length. lia.
Qed.

Lemma last_write_wins_witness :
  let w := {| time_time := 1700000000; write_ok := true; write_partial := 0 |} in
  let self := {| DiskStorage.file := {| content := []; position := 0 |};
                 DiskStorage.key_dir := ∅ |} in
  let first := DiskStorage.set big w [0x61] [0x31] self in
  let second := DiskStorage.set big w [0x61] [0x32] first.2 in
  first.1 = Ok tt /\ second.1 = Ok tt /\
  (DiskStorage.get [0x61] second.2).1 = Ok [0x32] /\
  exists sz data,
    encode_kv big (time_time w) [0x61] [0x32] = Ok (sz, data) /\
    sz = len data /\
    content (DiskStorage.file second.2)
      = content (DiskStorage.file first.2) ++ data /\
    len (content (DiskStorage.file second.2))
      = len (content (DiskStorage.file first.2)) + sz.
Proof.
  cbv zeta.
  apply (last_write_wins big {| time_time := 1700000000; write_ok := true; write_partial := 0 |}
           {| time_time := 1700000000; write_ok := true; write_partial := 0 |}).
  - apply (DiskStorage.opened_init big []). apply init_empty.
  - apply u32_bounds. cbn [time_time]. lia.
  - apply u32_bounds. cbn [time_time]. lia.
  - reflexivity.
  - reflexivity.
Defined.

(** ** The loop of [__init__] over well-formed records *)

Lemma record_bytes_len order r : len (record_bytes order r) = record_size r.
Proof.
  unfold record_bytes, record_size.
  rewrite (len_app (_ ++ _ ++ _)), len_header, len_app. lia.
Qed.

Lemma record_size_lower r : HEADER_SIZE <= record_size r.
Proof.
  unfold record_size.
  pose proof (len_nonneg (rec_key r)). pose proof (len_nonneg (rec_value r)).
  lia.
Qed.

Lemma file_seek_back f :
  HEADER_SIZE <= position f ->
  file_seek (- HEADER_SIZE) 1 f
  = Ok {| content := content f; position := position f - HEADER_SIZE |}.
Proof.
  intros H. unfold file_seek.
  change (1 =? 0) with false. change (1 =? 1) with true. cbv iota.
  rewrite ltb_false by lia. reflexivity.
Qed.

Lemma load_record_wf order r key (pre post : bytes) kd :
  wf_record r -> utf8_decode (rec_key r) = Some key ->
  DiskStorage.load_record order
    {| DiskStorage.file :=
         {| content := pre ++ record_bytes order r ++ post; position := len pre |};
       DiskStorage.key_dir := kd |}
  = Ok ({| DiskStorage.file :=
             {| content := pre ++ record_bytes order r ++ post;
                position := len pre + record_size r |};
           DiskStorage.key_dir :=
             <[key := (len pre + record_size r - len (rec_value r),
                       len (rec_value r))]> kd |},
        record_size r).
Proof.
  intros (Ht & Hk & Hv & _ & [value Ev]) Dk.
  pose proof (record_bytes_len order r) as Hlen.
  pose proof (len_nonneg pre) as Hpre.
  unfold DiskStorage.load_record. cbn [DiskStorage.file DiskStorage.key_dir].
  set (h := pack_I order (rec_timestamp r) ++ pack_I order (len (rec_key r))
              ++ pack_I order (len (rec_value r))).
  assert (Hh : len h = HEADER_SIZE) by apply len_header.
  erewrite (file_read_here _ pre h (rec_key r ++ rec_value r ++ post)); cycle 1.
  { cbn [content]. unfold record_bytes. fold h. rewrite <- !app_assoc. reflexivity. }
  { reflexivity. }
  { symmetry. exact Hh. }
  cbv beta iota zeta. unfold h at 1.
  rewrite decode_header_packed by assumption. cbn [mbind result_bind].
  rewrite file_seek_back by (cbn [position]; lia).
  cbn [mbind result_bind content position].
  erewrite (file_read_here _ pre (record_bytes order r) post); cycle 1.
  { reflexivity. }
  { cbn [position]. lia. }
  { rewrite Hlen. unfold record_size. reflexivity. }
  cbv beta iota zeta. subst h. unfold record_bytes.
  rewrite decode_kv_parts by assumption.
  assert (Bk : bytes_decode (rec_key r) = Ok key)
    by (unfold bytes_decode; rewrite Dk; reflexivity).
  apply bytes_decode_ok in Ev. rewrite Bk. cbn [mbind result_bind].
  rewrite Ev. cbn [mbind result_bind]. unfold file_tell. cbn [content position].
  unfold record_size. do 4 f_equal; try lia.
  f_equal. f_equal. lia.
Qed.

Lemma log_bytes_cons order r rs :
  log_bytes order (r :: rs) = record_bytes order r ++ log_bytes order rs.
Proof. reflexivity. Qed.

Lemma log_bytes_app order rs rs' :
  log_bytes order (rs ++ rs') = log_bytes order rs ++ log_bytes order rs'.
Proof. unfold log_bytes. rewrite map_app, concat_app. reflexivity. Qed.

Lemma wf_record_key r : wf_record r -> exists key, utf8_decode (rec_key r) = Some key.
Proof.
  intros (_ & _ & _ & [key Ek] & _). exists key.
  apply utf8_decode_encode, Ek.
Qed.

(** The loop walks over well-formed records one per turn, and arrives
    behind them with the key directory that indexes them. *)
Lemma load_records order fuel rs : forall (pre post : bytes) kd,
  Forall wf_record rs ->
  DiskStorage.load order (length rs + fuel)
    (len (pre ++ log_bytes order rs ++ post)) (len pre)
    {| DiskStorage.file :=
         {| content := pre ++ log_bytes order rs ++ post; position := len pre |};
       DiskStorage.key_dir := kd |}
  = DiskStorage.load order fuel
      (len (pre ++ log_bytes order rs ++ post))
      (len pre + len (log_bytes order rs))
      {| DiskStorage.file :=
           {| content := pre ++ log_bytes order rs ++ post;
              position := len pre + len (log_bytes order rs) |};
         DiskStorage.key_dir := index_records (len pre) rs kd |}.
Proof.
  induction rs as [|r rs IH]; intros pre post kd Hwf.
  - cbn [length Nat.add log_bytes map concat index_records app].
    change (len (@nil Byte.byte)) with 0. rewrite Z.add_0_r. reflexivity.
  - inversion Hwf as [|? ? Hr Hrs]; subst.
    destruct (wf_record_key _ Hr) as [key Dk].
    rewrite log_bytes_cons. cbn [length Nat.add DiskStorage.load index_records].
    rewrite Dk.
    pose proof (record_bytes_len order r) as Hlen.
    pose proof (record_size_lower r) as Hlow.
    rewrite <- (app_assoc (record_bytes order r)).
    destruct (len pre =? len (pre ++ record_bytes order r ++ log_bytes order rs ++ post)) eqn:E.
    { apply Z.eqb_eq in E. rewrite !len_app in E.
      pose proof (len_nonneg (log_bytes order rs)). pose proof (len_nonneg post).
      unfold HEADER_SIZE in *. lia. }
    rewrite (load_record_wf order r key pre _ kd Hr Dk).
    specialize (IH (pre ++ record_bytes order r) post
      (<[key := (len pre + record_size r - len (rec_value r), len (rec_value r))]> kd) Hrs).
    rewrite <- !app_assoc in IH.
    rewrite (len_app pre (record_bytes order r)), Hlen in IH.
    rewrite IH.
    rewrite (len_app (record_bytes order r) (log_bytes order rs)), Hlen.
    rewrite !Z.add_assoc. reflexivity.
Qed.

(** ** The loop of [__init__] always comes to an end *)

Lemma le_value_nonneg bs : 0 <= le_value bs.
Proof.
  induction bs as [|b bs IH]; cbn [le_value]; [lia|].
  pose proof (byte_val_range b). lia.
Qed.

Lemma decode_header_nonneg order h t k v :
  decode_header order h = Ok (t, k, v) -> 0 <= t /\ 0 <= k /\ 0 <= v.
Proof.
  unfold decode_header, struct_unpack_III.
  destruct (len h =? 12); [|discriminate].
  cbn [mbind result_bind]. intros [= <- <- <-].
  destruct order; cbn [unpack_I]; repeat split; apply le_value_nonneg.
Qed.

Lemma decode_header_wrong_len order h :
  len h <> HEADER_SIZE -> decode_header order h = Raise StructError.
Proof.
  unfold decode_header, struct_unpack_III, HEADER_SIZE. intros H.
  destruct (len h =? 12) eqn:E; [apply Z.eqb_eq in E; contradiction|].
  reflexivity.
Qed.

(** A turn that does not raise found a whole header at the position, kept
    the bytes of the file, and moved the handle by the size the header
    announces, or to the end of the file when that is nearer. *)
Lemma load_record_ok_inv order self self' n :
  0 <= position (DiskStorage.file self) ->
  DiskStorage.load_record order self = Ok (self', n) ->
  content (DiskStorage.file self') = content (DiskStorage.file self) /\
  HEADER_SIZE <= n /\
  position (DiskStorage.file self) + HEADER_SIZE
    <= len (content (DiskStorage.file self)) /\
  position (DiskStorage.file self')
    = Z.min (position (DiskStorage.file self) + n)
            (len (content (DiskStorage.file self))).
Proof.
  intros Hpos. unfold DiskStorage.load_record.
  pose proof (file_read_facts HEADER_SIZE (DiskStorage.file self)
                ltac:(unfold HEADER_SIZE; lia) Hpos) as (C1 & P1 & L1).
  destruct (file_read HEADER_SIZE (DiskStorage.file self)) as [header f1].
  cbn [fst snd] in C1, P1, L1.
  destruct (decode_header order header) as [[[t k] v]|e] eqn:Dh; [|discriminate].
  pose proof (decode_header_len _ _ _ Dh) as Lh.
  pose proof (decode_header_nonneg _ _ _ _ _ Dh) as (_ & Hk & Hv).
  cbn [mbind result_bind].
  rewrite file_seek_back by lia. cbn [mbind result_bind].
  match goal with |- context [file_read ?m ?f] =>
    pose proof (file_read_facts m f ltac:(unfold HEADER_SIZE; lia)
                  ltac:(cbn [position]; lia)) as (C2 & P2 & L2);
    destruct (file_read m f) as [data f3]
  end.
  cbn [fst snd content position] in C2, P2, L2.
  destruct (decode_kv order data) as [[[t' key] value]|e]; [|discriminate].
  cbn [mbind result_bind]. intros [= <- <-].
  cbn [DiskStorage.file]. unfold HEADER_SIZE in *. rewrite C1 in *.
  split; [exact C2 | lia].
Qed.



(** ** A cut last record *)

Lemma decode_header_raise order h e :
  decode_header order h = Raise e -> e = StructError.
Proof.
  unfold decode_header, struct_unpack_III.
  destruct (len h =? 12); cbn [mbind result_bind]; [discriminate|].
  intros [= <-]. reflexivity.
Qed.

Lemma decode_kv_raise order data e :
  decode_kv order data = Raise e -> e = StructError \/ e = UnicodeDecodeError.
Proof.
  unfold decode_kv.
  destruct (decode_header order (slice data 0 HEADER_SIZE))
    as [[[t ks] vs]|e0] eqn:Dh; cbn [mbind result_bind].
  - destruct (bytes_decode (slice data HEADER_SIZE (HEADER_SIZE + ks)))
      as [k|e1] eqn:Bk; cbn [mbind result_bind].
    + destruct (bytes_decode (slice_from data (HEADER_SIZE + ks)))
        as [v|e2] eqn:Bv; cbn [mbind result_bind]; [discriminate|].
      intros [= <-]. right. apply (bytes_decode_raise_inv _ _ Bv).
    + intros [= <-]. right. apply (bytes_decode_raise_inv _ _ Bk).
  - intros [= <-]. left. apply (decode_header_raise _ _ _ Dh).
Qed.

(** The two exceptions a turn of the loop can end with. *)
Lemma load_record_raise order self e :
  0 <= position (DiskStorage.file self) ->
  DiskStorage.load_record order self = Raise e ->
  e = StructError \/ e = UnicodeDecodeError.
Proof.
  intros Hpos. unfold DiskStorage.load_record.
  pose proof (file_read_facts HEADER_SIZE (DiskStorage.file self)
                ltac:(unfold HEADER_SIZE; lia) Hpos) as (_ & P1 & _).
  destruct (file_read HEADER_SIZE (DiskStorage.file self)) as [header f1].
  cbn [fst snd] in P1.
  destruct (decode_header order header) as [[[t k] v]|e0] eqn:Dh;
    cbn [mbind result_bind].
  - pose proof (decode_header_len _ _ _ Dh) as Lh.
    rewrite file_seek_back by lia. cbn [mbind result_bind].
    destruct (file_read _ _) as [data f3].
    destruct (decode_kv order data) as [[[t' key] value]|e1] eqn:Dkv;
      cbn [mbind result_bind]; [discriminate|].
    intros [= <-]. apply (decode_kv_raise _ _ _ Dkv).
  - intros [= <-]. left. apply (decode_header_raise _ _ _ Dh).
Qed.

Lemma load_done order fuel file_size self :
  DiskStorage.load order fuel file_size file_size self = Some (Ok self).
Proof. destruct fuel; cbn [DiskStorage.load]; rewrite Z.eqb_refl; reflexivity. Qed.

Lemma load_record_at_end order self :
  position (DiskStorage.file self) = len (content (DiskStorage.file self)) ->
  DiskStorage.load_record order self = Raise StructError.
Proof.
  intros Hend. unfold DiskStorage.load_record.
  erewrite (file_read_tail _ (content (DiskStorage.file self)) []); cycle 1.
  { rewrite app_nil_r. reflexivity. }
  { exact Hend. }
  { unfold len, HEADER_SIZE. cbn [length]. lia. }
  cbv beta iota zeta. reflexivity.
Qed.

(** Where the file ends inside a record, the loop raises: at once when
    the header is cut or the cut text does not decode, and on its next
    turn otherwise, when it looks for a header at the end of the file. *)
Lemma load_truncated order fuel r n (pre : bytes) kd :
  wf_record r -> 0 < n < record_size r ->
  exists e,
    DiskStorage.load order (S (S fuel))
      (len (pre ++ take (Z.to_nat n) (record_bytes order r))) (len pre)
      {| DiskStorage.file :=
           {| content := pre ++ take (Z.to_nat n) (record_bytes order r);
              position := len pre |};
         DiskStorage.key_dir := kd |}
    = Some (Raise e) /\
    (e = StructError \/ e = UnicodeDecodeError).
Proof.
  intros Hwf Hn. pose proof Hwf as (Ht & Hk & Hv & _).
  pose proof (record_bytes_len order r) as Hlen.
  set (cut := take (Z.to_nat n) (record_bytes order r)).
  assert (Hcut : len cut = n).
  { unfold cut, len in *. rewrite length_take. lia. }
  pose proof (len_nonneg pre) as Hpre.
  cbn [DiskStorage.load].
  rewrite (proj2 (Z.eqb_neq _ _)) by (rewrite len_app; lia).
  destruct (Z.lt_ge_cases n HEADER_SIZE) as [Hshort | Hlong].
  - (* the header itself is cut *)
    exists StructError. unfold DiskStorage.load_record.
    cbn [DiskStorage.file DiskStorage.key_dir].
    erewrite (file_read_tail _ pre cut); cycle 1.
    { reflexivity. } { reflexivity. } { lia. }
    cbv beta iota zeta.
    rewrite decode_header_wrong_len by lia. split; [reflexivity | left; reflexivity].
  - (* the header is whole, the key or the value is cut *)
    set (h := pack_I order (rec_timestamp r) ++ pack_I order (len (rec_key r))
                ++ pack_I order (len (rec_value r))).
    assert (Hh : len h = HEADER_SIZE) by apply len_header.
    assert (Ecut : cut = h ++ take (Z.to_nat n - length h)
                                   (rec_key r ++ rec_value r)).
    { unfold cut, record_bytes. fold h. apply take_app_ge.
      unfold len in Hh. lia. }
    destruct (DiskStorage.load_record order _) as [[self' m]|e] eqn:L.
    2:{ exists e. split; [reflexivity|].
        apply load_record_raise in L; [exact L|].
        cbn [DiskStorage.file position]. lia. }
    exists StructError. split; [|left; reflexivity].
    assert (position (DiskStorage.file self')
            = len (content (DiskStorage.file self')) /\
            len (pre ++ cut) < len pre + m /\
            content (DiskStorage.file self') = pre ++ cut) as (Pend & Hover & C).
    { unfold DiskStorage.load_record in L.
      cbn [DiskStorage.file DiskStorage.key_dir] in L.
      erewrite (file_read_here _ pre h) in L; cycle 1.
      { cbn [content]. rewrite Ecut. reflexivity. }
      { reflexivity. }
      { symmetry. exact Hh. }
      cbv beta iota zeta in L. unfold h at 1 in L.
      rewrite decode_header_packed in L by assumption.
      cbn [mbind result_bind] in L.
      rewrite file_seek_back in L by (cbn [position]; lia).
      cbn [mbind result_bind content position] in L.
      erewrite (file_read_tail _ pre cut) in L; cycle 1.
      { reflexivity. }
      { cbn [position]. lia. }
      { unfold record_size in Hn. lia. }
      cbv beta iota zeta in L.
      destruct (decode_kv order cut) as [[[t' key] value]|e]; [|discriminate].
      cbn [mbind result_bind] in L. injection L as <- <-.
      cbn [DiskStorage.file content position].
      rewrite len_app. unfold record_size in Hn.
      repeat split; lia. }
    rewrite C in Pend.
    cbn [DiskStorage.load].
    rewrite (proj2 (Z.eqb_neq _ _)) by lia.
    rewrite load_record_at_end by (rewrite C; exact Pend). reflexivity.
Qed.

Lemma log_bytes_length order rs :
  Forall wf_record rs -> (length rs <= length (log_bytes order rs))%nat.
Proof.
  induction 1 as [|r rs Hr Hrs IH]; [cbn; lia|].
  rewrite log_bytes_cons, length_app. cbn [length].
  pose proof (record_bytes_len order r). pose proof (record_size_lower r).
  unfold len, HEADER_SIZE in *. lia.
Qed.

(** C6: a file of well-formed records whose last record lacks at least one
    of its bytes (and keeps at least one) makes [__init__] raise, with
    struct.error or UnicodeDecodeError; no engine is returned. *)
Theorem truncated_file_rejected (order : byteorder) (rs : list record)
    (r : record) (n : Z) :
  Forall wf_record rs -> wf_record r ->
  0 < n < len (record_bytes order r) ->
  exists e,
    DiskStorage.init order
      (log_bytes order rs ++ take (Z.to_nat n) (record_bytes order r))
    = Some (Raise e) /\
    (e = StructError \/ e = UnicodeDecodeError).
Proof.
  intros Hrs Hr Hn. rewrite record_bytes_len in Hn.
  set (cut := take (Z.to_nat n) (record_bytes order r)).
  assert (Hcut : len cut = n).
  { unfold cut, len. rewrite length_take.
    pose proof (record_bytes_len order r). unfold len in *. lia. }
  pose proof (log_bytes_length order rs Hrs) as Hlog.
  unfold DiskStorage.init.
  rewrite (proj2 (Z.eqb_neq (len (log_bytes order rs ++ cut)) 0))
    by (rewrite len_app; unfold len in *; lia).
  cbn [negb]. rewrite file_seek_start.
  cbn [DiskStorage.file DiskStorage.key_dir content].
  replace (S (length (log_bytes order rs ++ cut)))
    with (length rs + S (S (length (log_bytes order rs ++ cut) - length rs - 1)))%nat
    by (rewrite length_app; unfold len in *; lia).
  pose proof (load_records order
                (S (S (length (log_bytes order rs ++ cut) - length rs - 1)))
                rs [] cut ∅ Hrs) as Hwalk.
  cbn [app] in Hwalk. change (len (@nil Byte.byte)) with 0 in Hwalk.
  rewrite Hwalk, !Z.add_0_l.
  destruct (load_truncated order
              (length (log_bytes order rs ++ cut) - length rs - 1)
              r n (log_bytes order rs) (index_records 0 rs ∅) Hr Hn)
    as (e & He & Hkind).
  fold cut in He. rewrite He. exists e. split; [reflexivity | exact Hkind].
Qed.

Lemma truncated_file_rejected_witness :
  let r1 := {| rec_timestamp := 1; rec_key := [Byte.x61]; rec_value := [Byte.x31] |} in
  let r2 := {| rec_timestamp := 2; rec_key := [Byte.x62];
               rec_value := [Byte.xc3; Byte.xa9] |} in
  exists e,
    DiskStorage.init little
      (log_bytes little [r1] ++ take (Z.to_nat 14) (record_bytes little r2))
    = Some (Raise e) /\
    (e = StructError \/ e = UnicodeDecodeError).
Proof.
  cbv zeta.
  apply (truncated_file_rejected little
           [{| rec_timestamp := 1; rec_key := [Byte.x61]; rec_value := [Byte.x31] |}]
           {| rec_timestamp := 2; rec_key := [Byte.x62];
              rec_value := [Byte.xc3; Byte.xa9] |} 14).
  - constructor; [|constructor].
    unfold wf_record; cbn [rec_timestamp rec_key rec_value].
    repeat split; try (apply u32_bounds; unfold len; cbn [length]; lia).
    + exists [0x61]. reflexivity.
    + exists [0x31]. reflexivity.
  - unfold wf_record; cbn [rec_timestamp rec_key rec_value].
    repeat split; try (apply u32_bounds; unfold len; cbn [length]; lia).
    + exists [0x62]. reflexivity.
    + exists [0xE9]. reflexivity.
  - vm_compute. split; reflexivity.
Defined.

(** ** Opening again *)

Lemma index_records_app order rs : forall base kd rs',
  Forall wf_record rs ->
  index_records base (rs ++ rs') kd
  = index_records (base + len (log_bytes order rs)) rs' (index_records base rs kd).
Proof.
  induction rs as [|r rs IH]; intros base kd rs' Hwf.
  - cbn [app index_records log_bytes map concat].
    change (len (@nil Byte.byte)) with 0. rewrite Z.add_0_r. reflexivity.
  - inversion Hwf as [|? ? Hr Hrs]; subst.
    destruct (wf_record_key _ Hr) as [key Dk].
    cbn [app index_records]. rewrite Dk, IH by assumption.
    rewrite log_bytes_cons, len_app, record_bytes_len, Z.add_assoc.
    reflexivity.
Qed.

(** Over a log of well-formed records [__init__] returns an engine: the
    file as it is, the handle at its end, and the key directory that
    indexes the records. *)
Lemma init_log order rs :
  Forall wf_record rs ->
  DiskStorage.init order (log_bytes order rs)
  = Some (Ok {| DiskStorage.file :=
                  {| content := log_bytes order rs;
                     position := len (log_bytes order rs) |};
                DiskStorage.key_dir := index_records 0 rs ∅ |}).
Proof.
  intros Hrs. pose proof (log_bytes_length order rs Hrs) as Hlog.
  unfold DiskStorage.init.
  destruct (len (log_bytes order rs) =? 0) eqn:E; cbn [negb].
  - apply Z.eqb_eq in E.
    assert (rs = []) as ->
      by (apply length_zero_iff_nil; unfold len in E; lia).
    reflexivity.
  - rewrite file_seek_start.
    cbn [DiskStorage.file DiskStorage.key_dir content].
    pose proof (load_records order
                  (S (length (log_bytes order rs)) - length rs)
                  rs [] [] ∅ Hrs) as Hwalk.
    cbn [app] in Hwalk. rewrite app_nil_r in Hwalk.
    change (len (@nil Byte.byte)) with 0 in Hwalk.
    rewrite !Z.add_0_l, load_done in Hwalk.
    replace (length rs + (S (length (log_bytes order rs)) - length rs))%nat
      with (S (length (log_bytes order rs))) in Hwalk by lia.
    rewrite Hwalk. cbn [mbind result_bind].
    rewrite file_seek_end. reflexivity.
Qed.

(** Over a file of well-formed records, a pair of ASCII texts written by
    [set] is read back after the file is closed and opened again. *)
Lemma reopen_reads_back order w key value rs self :
  Forall wf_record rs ->
  content (DiskStorage.file self) = log_bytes order rs ->
  at_end self ->
  u32 (time_time w) -> write_ok w = true ->
  ascii_text key -> ascii_text value ->
  u32 (len key) -> u32 (len value) ->
  exists self1 reopened,
    DiskStorage.set order w key value self = (Ok tt, self1) /\
    DiskStorage.init order (DiskStorage.close self1) = Some (Ok reopened) /\
    (DiskStorage.get key reopened).1 = Ok value.
Proof.
  intros Hrs Hc Hend Ht W Hak Hav Hk Hv.
  pose proof (str_encode_ascii _ Hak) as Ek.
  pose proof (str_encode_ascii _ Hav) as Ev.
  set (r := {| rec_timestamp := time_time w; rec_key := map byte_of key;
               rec_value := map byte_of value |}).
  assert (Lk : len (map byte_of key) = len key)
    by (unfold len; rewrite length_map; reflexivity).
  assert (Lv : len (map byte_of value) = len value)
    by (unfold len; rewrite length_map; reflexivity).
  assert (Hr : wf_record r).
  { unfold wf_record, r. cbn [rec_timestamp rec_key rec_value].
    rewrite Lk, Lv. repeat split; try assumption;
      try apply Ht; try apply Hk; try apply Hv; eexists; eassumption. }
  assert (Dk : utf8_decode (rec_key r) = Some key)
    by (apply utf8_decode_encode, Ek).
  pose proof (encode_kv_ok order _ _ _ _ _ Ht Hk Hv Ek Ev) as E.
  assert (Hdata : (pack_I order (time_time w) ++ pack_I order (len key)
                     ++ pack_I order (len value))
                    ++ map byte_of key ++ map byte_of value
                  = record_bytes order r).
  { unfold record_bytes, r. cbn [rec_timestamp rec_key rec_value].
    rewrite Lk, Lv. reflexivity. }
  rewrite Hdata in E.
  rewrite (set_ok _ _ _ _ _ _ self E W). do 2 eexists.
  split; [reflexivity|].
  unfold DiskStorage.close. cbn [DiskStorage.file content].
  rewrite Hc.
  assert (Hdisk : log_bytes order rs ++ record_bytes order r
                  = log_bytes order (rs ++ [r])).
  { rewrite log_bytes_app. unfold log_bytes at 3. cbn [map concat].
    rewrite app_nil_r. reflexivity. }
  rewrite Hdisk.
  assert (Hrs' : Forall wf_record (rs ++ [r]))
    by (apply Forall_app; split; [assumption | constructor; [assumption | constructor]]).
  rewrite (init_log order _ Hrs'). split; [reflexivity|].
  pose proof (record_size_lower r) as Hlow.
  pose proof (len_nonneg (log_bytes order rs)) as Hpre.
  unfold DiskStorage.get. cbn [DiskStorage.key_dir DiskStorage.file].
  rewrite (index_records_app order) by assumption.
  cbn [index_records]. rewrite Dk, lookup_insert_eq.
  pose proof (len_nonneg (rec_key r)). pose proof (len_nonneg (rec_value r)).
  rewrite file_seek_set by (unfold record_size, HEADER_SIZE; lia).
  cbn [content].
  set (h := pack_I order (rec_timestamp r) ++ pack_I order (len (rec_key r))
              ++ pack_I order (len (rec_value r))).
  assert (Hh : len h = HEADER_SIZE) by apply len_header.
  erewrite (file_read_tail _ (log_bytes order rs ++ h ++ rec_key r)
              (rec_value r)).
  - rewrite file_seek_end. cbn [fst]. apply bytes_decode_ok. exact Ev.
  - cbn [content]. rewrite <- Hdisk. unfold record_bytes. fold h.
    rewrite <- !app_assoc. reflexivity.
  - cbn [position]. rewrite !len_app. unfold record_size. lia.
  - lia.
Qed.

(** C2: an engine that holds a value outside ASCII: after [set("x","y")]
    the value is read back from the open engine, and opening the file
    again raises instead of returning an engine that holds "x". *)
Theorem reopen_fails_after_non_ascii_value (order : byteorder) :
  let w := {| time_time := 0; write_ok := true; write_partial := 0 |} in
  exists fresh s1 s2,
    DiskStorage.init order [] = Some (Ok fresh) /\
    DiskStorage.set order w [0x6B] [0xE9] fresh = (Ok tt, s1) /\
    DiskStorage.set order w [0x78] [0x79] s1 = (Ok tt, s2) /\
    (DiskStorage.get [0x78] s2).1 = Ok [0x79] /\
    DiskStorage.init order (DiskStorage.close s2)
      = Some (Raise UnicodeDecodeError).
Proof.
  cbv zeta. destruct order; do 3 eexists;
    (split; [reflexivity|]); (split; [reflexivity|]); (split; [reflexivity|]);
    split; vm_compute; reflexivity.
Qed.

(** ** A file that [__init__] accepts is a log of well-formed records *)

Lemma byte_of_eq z b : z mod 256 = byte_val b -> byte_of z = b.
Proof.
  intros H. unfold byte_of. rewrite H. unfold byte_val.
  rewrite N2Z.id, Byte.of_to_N. reflexivity.
Qed.

Lemma le_bytes_value (bs : bytes) :
  length bs = 4%nat -> le_bytes (le_value bs) = bs /\ u32 (le_value bs).
Proof.
  destruct bs as [|b0 [|b1 [|b2 [|b3 [|]]]]]; try discriminate. intros _.
  pose proof (byte_val_range b0). pose proof (byte_val_range b1).
  pose proof (byte_val_range b2). pose proof (byte_val_range b3).
  cbn [le_value]. unfold le_bytes.
  change (2 ^ 8) with 256. change (2 ^ 16) with 65536.
  change (2 ^ 24) with 16777216.
  split.
  - repeat f_equal; apply byte_of_eq; divmod.
  - apply u32_bounds. lia.
Qed.

Lemma pack_unpack_I order (bs : bytes) :
  length bs = 4%nat ->
  pack_I order (unpack_I order bs) = bs /\ u32 (unpack_I order bs).
Proof.
  intros H. destruct order; cbn [pack_I unpack_I].
  - apply le_bytes_value, H.
  - destruct (le_bytes_value (rev bs)) as [E U]; [rewrite length_rev; exact H|].
    rewrite E, rev_involutive. split; [reflexivity | exact U].
Qed.

Lemma decode_header_inv order h t k v :
  decode_header order h = Ok (t, k, v) ->
  h = pack_I order t ++ pack_I order k ++ pack_I order v /\
  u32 t /\ u32 k /\ u32 v.
Proof.
  intros D. pose proof (decode_header_len _ _ _ D) as L.
  unfold len, HEADER_SIZE in L.
  do 12 (destruct h as [|? h]; [cbn [length] in L; lia|]).
  destruct h; [|cbn [length] in L; lia]. clear L.
  unfold decode_header, struct_unpack_III in D.
  cbn [mbind result_bind] in D.
  change (len _ =? 12) with true in D. cbv iota in D.
  injection D as <- <- <-.
  unfold slice.
  match goal with
  | |- _ = pack_I _ (unpack_I _ ?a) ++ pack_I _ (unpack_I _ ?b)
           ++ pack_I _ (unpack_I _ ?c) /\ _ =>
    destruct (pack_unpack_I order a eq_refl) as [-> ?];
    destruct (pack_unpack_I order b eq_refl) as [-> ?];
    destruct (pack_unpack_I order c eq_refl) as [-> ?]
  end.
  split; [reflexivity|]. split; [assumption|]. split; assumption.
Qed.

(** A turn of the loop that finds the bytes it asks for has read one
    well-formed record. *)
Lemma load_record_whole order (pre rest : bytes) kd self1 n :
  DiskStorage.load_record order
    {| DiskStorage.file := {| content := pre ++ rest; position := len pre |};
       DiskStorage.key_dir := kd |} = Ok (self1, n) ->
  n <= len rest ->
  exists r rest',
    wf_record r /\ n = record_size r /\
    rest = record_bytes order r ++ rest' /\
    content (DiskStorage.file self1) = pre ++ rest /\
    position (DiskStorage.file self1) = len pre + n.
Proof.
  intros L Hn. pose proof (len_nonneg pre) as Hpre.
  pose proof L as L'.
  apply load_record_ok_inv in L'; [|cbn [DiskStorage.file position]; lia].
  destruct L' as (C & Hlow & _ & P).
  cbn [DiskStorage.file content position] in C, P.
  rewrite len_app in P. rewrite Z.min_l in P by lia.
  unfold DiskStorage.load_record, file_read, slice_from in L.
  cbn [DiskStorage.file DiskStorage.key_dir content position] in L.
  replace (Z.to_nat (len pre)) with (length pre) in L by (unfold len; lia).
  rewrite drop_app_length in L.
  change (HEADER_SIZE <? 0) with false in L. cbv iota in L.
  destruct (decode_header order (take (Z.to_nat HEADER_SIZE) rest))
    as [[[t ks] vs]|] eqn:Dh; [|discriminate].
  cbn [mbind result_bind] in L.
  pose proof (decode_header_len _ _ _ Dh) as Lh.
  pose proof (decode_header_inv _ _ _ _ _ Dh) as (Eh & Ut & Uk & Uv).
  pose proof (decode_header_nonneg _ _ _ _ _ Dh) as (_ & Hk & Hv).
  rewrite file_seek_back in L by (cbn [position]; lia).
  cbn [mbind result_bind content position] in L.
  rewrite Lh in L.
  replace (Z.to_nat (len pre + HEADER_SIZE - HEADER_SIZE)) with (length pre) in L
    by (unfold len; lia).
  rewrite drop_app_length in L.
  rewrite ltb_false in L by (unfold HEADER_SIZE; lia).
  set (data := take (Z.to_nat (HEADER_SIZE + ks + vs)) rest) in *.
  destruct (decode_kv order data) as [[[t' key] value]|] eqn:Dkv; [|discriminate].
  cbn [mbind result_bind] in L. injection L as _ <-.
  assert (Ldata : len data = HEADER_SIZE + ks + vs).
  { unfold data, len in *. rewrite length_take. unfold HEADER_SIZE in *. lia. }
  assert (Hhead : slice data 0 HEADER_SIZE = take (Z.to_nat HEADER_SIZE) rest).
  { unfold slice, data. change (Z.to_nat 0) with 0%nat. rewrite drop_0.
    rewrite Z.sub_0_r, take_take. f_equal. unfold HEADER_SIZE. lia. }
  rewrite <- Hhead in Dh, Eh.
  destruct (decode_kv_ok_inv _ _ _ _ _ _ _ _ Dh Dkv) as (_ & Ek & Ev).
  set (kb := slice data HEADER_SIZE (HEADER_SIZE + ks)) in *.
  set (vb := slice_from data (HEADER_SIZE + ks)) in *.
  assert (Lk : len kb = ks).
  { unfold kb, slice, len in *. rewrite length_take, length_drop.
    unfold HEADER_SIZE in *. lia. }
  assert (Lv : len vb = vs).
  { unfold vb, slice_from, len in *. rewrite length_drop.
    unfold HEADER_SIZE in *. lia. }
  assert (Edata : data = slice data 0 HEADER_SIZE ++ kb ++ vb).
  { unfold kb, vb, slice, slice_from.
    change (Z.to_nat 0) with 0%nat. rewrite drop_0, Z.sub_0_r.
    replace (Z.to_nat (HEADER_SIZE + ks))
      with (Z.to_nat HEADER_SIZE + Z.to_nat (HEADER_SIZE + ks - HEADER_SIZE))%nat
      by (unfold HEADER_SIZE; lia).
    rewrite <- drop_drop, !take_drop. reflexivity. }
  exists {| rec_timestamp := t; rec_key := kb; rec_value := vb |},
         (drop (Z.to_nat (HEADER_SIZE + ks + vs)) rest).
  split; [|split; [|split; [|split]]].
  - unfold wf_record. cbn [rec_timestamp rec_key rec_value].
    rewrite Lk, Lv. repeat split; try apply Ut; try apply Uk; try apply Uv;
      eexists; eassumption.
  - unfold record_size. cbn [rec_key rec_value]. rewrite Lk, Lv. reflexivity.
  - unfold record_bytes. cbn [rec_timestamp rec_key rec_value].
    rewrite Lk, Lv, <- Eh, <- Edata. unfold data. symmetry. apply take_drop.
  - exact C.
  - exact P.
Qed.

Lemma load_ok_log order fuel : forall (pre rest : bytes) kd self',
  DiskStorage.load order fuel (len (pre ++ rest)) (len pre)
    {| DiskStorage.file := {| content := pre ++ rest; position := len pre |};
       DiskStorage.key_dir := kd |} = Some (Ok self') ->
  exists rs, Forall wf_record rs /\ rest = log_bytes order rs.
Proof.
  assert (Hnil : forall pre rest : bytes,
             (len pre =? len (pre ++ rest)) = true -> rest = []).
  { intros pre rest E. apply Z.eqb_eq in E. rewrite len_app in E.
    apply length_zero_iff_nil. unfold len in E. lia. }
  induction fuel as [|fuel IH]; intros pre rest kd self' H;
    cbn [DiskStorage.load] in H;
    destruct (len pre =? len (pre ++ rest)) eqn:E;
    try (exists []; split; [constructor | apply (Hnil _ _ E)]);
    try discriminate.
  apply Z.eqb_neq in E.
  destruct (DiskStorage.load_record order _) as [[self1 n]|] eqn:L;
    [|discriminate].
  pose proof (len_nonneg pre) as Hpre.
  destruct (Z_le_gt_dec n (len rest)) as [Hfit | Hover].
  - destruct (load_record_whole _ _ _ _ _ _ L Hfit)
      as (r & rest' & Hr & Hn & -> & C & P).
    destruct self1 as [[c p] kd1]. cbn [DiskStorage.file content position] in C, P.
    subst c p. rewrite Hn, <- (record_bytes_len order r), <- len_app in H.
    rewrite app_assoc in H.
    destruct (IH _ _ _ _ H) as (rs & Hrs & ->).
    exists (r :: rs). split; [constructor; assumption | reflexivity].
  - exfalso.
    apply load_record_ok_inv in L; [|cbn [DiskStorage.file position]; lia].
    destruct L as (C & _ & _ & P).
    cbn [DiskStorage.file content position] in C, P.
    rewrite Z.min_r in P by (rewrite len_app; lia).
    destruct fuel as [|fuel']; cbn [DiskStorage.load] in H;
      rewrite (proj2 (Z.eqb_neq _ _)) in H by (rewrite len_app; lia);
      [discriminate|].
    rewrite load_record_at_end in H by (rewrite C; exact P). discriminate.
Qed.

Lemma load_content order fuel : forall file_size bytes_read self loaded,
  0 <= position (DiskStorage.file self) ->
  DiskStorage.load order fuel file_size bytes_read self = Some (Ok loaded) ->
  content (DiskStorage.file loaded) = content (DiskStorage.file self).
Proof.
  induction fuel as [|fuel IH]; intros size br s loaded Hp H;
    cbn [DiskStorage.load] in H; destruct (br =? size);
    try (injection H as <-; reflexivity); try discriminate.
  destruct (DiskStorage.load_record order s) as [[s1 n]|] eqn:L;
    [|discriminate].
  apply load_record_ok_inv in L; [|exact Hp].
  destruct L as (C & Hn & Hroom & P).
  rewrite <- C. apply (IH _ _ _ _) in H; [exact H|].
  pose proof (len_nonneg (content (DiskStorage.file s))).
  unfold HEADER_SIZE in *. lia.
Qed.

Lemma init_ok_log order disk self :
  DiskStorage.init order disk = Some (Ok self) ->
  content (DiskStorage.file self) = disk /\
  exists rs, Forall wf_record rs /\ disk = log_bytes order rs.
Proof.
  unfold DiskStorage.init.
  destruct (len disk =? 0) eqn:E; cbn [negb].
  - cbn [mbind result_bind]. rewrite file_seek_end.
    cbn [mbind result_bind DiskStorage.file DiskStorage.key_dir content].
    intros [= <-]. cbn [DiskStorage.file content].
    split; [reflexivity|]. exists []. split; [constructor|].
    apply Z.eqb_eq in E. apply length_zero_iff_nil. unfold len in E. lia.
  - rewrite file_seek_start.
    cbn [DiskStorage.file DiskStorage.key_dir content].
    destruct (DiskStorage.load order _ _ _ _) as [[loaded|]|] eqn:L;
      try discriminate.
    cbn [mbind result_bind]. rewrite file_seek_end.
    cbn [mbind result_bind]. intros [= <-]. cbn [DiskStorage.file content].
    split.
    + apply load_content in L; [exact L | cbn; lia].
    + apply (load_ok_log order _ [] disk ∅ loaded L).
Qed.

(** On an engine that [__init__] has just returned, whatever file it was
    built over: [set("x","y")], [close()], and [__init__] on the same file
    give an engine where [get("x")] is "y". *)
Lemma fresh_engine_reopen order disk self w :
  DiskStorage.init order disk = Some (Ok self) ->
  u32 (time_time w) -> write_ok w = true ->
  exists self1 reopened,
    DiskStorage.set order w [0x78] [0x79] self = (Ok tt, self1) /\
    DiskStorage.init order (DiskStorage.close self1) = Some (Ok reopened) /\
    (DiskStorage.get [0x78] reopened).1 = Ok [0x79].
Proof.
  intros Hi Ht W.
  destruct (init_ok_log _ _ _ Hi) as (C & rs & Hrs & Hd).
  apply (reopen_reads_back order w [0x78] [0x79] rs self); try assumption.
  - rewrite C. exact Hd.
  - eapply init_at_end, Hi.
  - repeat constructor; lia.
  - repeat constructor; lia.
  - apply u32_bounds. unfold len. cbn [length]. lia.
  - apply u32_bounds. unfold len. cbn [length]. lia.
Qed.

(** * Further properties of the codec *)

Lemma utf8_encode_char_raise c e :
  utf8_encode_char c = Raise e -> e = UnicodeEncodeError /\ ~ scalar c.
Proof.
  unfold utf8_encode_char, scalar, is_surrogate.
  repeat match goal with
  | |- context [if ?b then _ else _] => destruct b eqn:?
  end; try discriminate; intros [= <-]; (split; [reflexivity|]); lia.
Qed.

Lemma str_encode_raise s e :
  str_encode s = Raise e -> e = UnicodeEncodeError /\ ~ text s.
Proof.
  unfold text. induction s as [|c s IH]; cbn [str_encode]; [discriminate|].
  destruct (utf8_encode_char c) as [cb|e0] eqn:Ec; cbn [mbind result_bind].
  - destruct (str_encode s) as [rest|e1] eqn:Es; cbn [mbind result_bind];
      [discriminate|].
    intros [= <-]. destruct (IH eq_refl) as [-> Hn].
    split; [reflexivity|]. intros H. inversion H; subst. auto.
  - intros [= <-]. destruct (utf8_encode_char_raise _ _ Ec) as [-> Hn].
    split; [reflexivity|]. intros H. inversion H; subst. auto.
Qed.

Lemma is_u32_false n : is_u32 n = false -> ~ u32 n.
Proof.
  intros H U. apply is_u32_spec in U. congruence.
Qed.

(** X1: [encode_kv] returns exactly when the timestamp and the two
    lengths fit in 32 bits and both texts have an encoding; what it
    returns is the header, the encoded key and the encoded value, with the
    number of these bytes.  The range test comes first: it raises
    struct.error whenever a field is out of range, and UnicodeEncodeError
    only for fields in range and a text with a surrogate in it. *)
Theorem encode_kv_outcome (order : byteorder) (timestamp : Z) (key value : str) :
  match encode_kv order timestamp key value with
  | Ok (sz, data) =>
      u32 timestamp /\ u32 (len key) /\ u32 (len value) /\
      exists k v,
        str_encode key = Ok k /\ str_encode value = Ok v /\
        data = (pack_I order timestamp ++ pack_I order (len key)
                  ++ pack_I order (len value)) ++ k ++ v /\
        sz = len data
  | Raise e =>
      (e = StructError /\
       ~ (u32 timestamp /\ u32 (len key) /\ u32 (len value))) \/
      (e = UnicodeEncodeError /\
       u32 timestamp /\ u32 (len key) /\ u32 (len value) /\
       ~ (text key /\ text value))
  end.
Proof.
  destruct (encode_kv order timestamp key value) as [[sz data]|e] eqn:E.
  - apply encode_kv_inv in E.
    destruct E as (k & v & Ek & Ev & Ht & Hk & Hv & -> & ->).
    repeat (split; [assumption|]). exists k, v.
    repeat (split; [first [assumption | reflexivity]|]).
    rewrite (len_app (_ ++ _ ++ _)), len_header, len_app. lia.
  - revert E. unfold encode_kv, encode_header, struct_pack_III.
    destruct (is_u32 timestamp) eqn:Ht; cbn [andb].
    2:{ cbn [mbind result_bind]. intros [= <-]. left.
        split; [reflexivity|]. intros (U & _ & _).
        apply (is_u32_false _ Ht U). }
    destruct (is_u32 (len key)) eqn:Hk; cbn [andb].
    2:{ cbn [mbind result_bind]. intros [= <-]. left.
        split; [reflexivity|]. intros (_ & U & _).
        apply (is_u32_false _ Hk U). }
    destruct (is_u32 (len value)) eqn:Hv; cbn [andb].
    2:{ cbn [mbind result_bind]. intros [= <-]. left.
        split; [reflexivity|]. intros (_ & _ & U).
        apply (is_u32_false _ Hv U). }
    apply is_u32_spec in Ht, Hk, Hv. cbn [mbind result_bind].
    destruct (str_encode key) as [k|e1] eqn:Ek; cbn [mbind result_bind].
    + destruct (str_encode value) as [v|e2] eqn:Ev; cbn [mbind result_bind];
        [discriminate|].
      intros [= <-]. destruct (str_encode_raise _ _ Ev) as [-> Hn].
      right. repeat (split; [first [assumption | reflexivity]|]).
      intros [_ H]. auto.
    + intros [= <-]. destruct (str_encode_raise _ _ Ek) as [-> Hn].
      right. repeat (split; [first [assumption | reflexivity]|]).
      intros [H _]. auto.
Qed.

(** X2: the size that [encode_kv] returns is the number of bytes it
    returns, at least 12 plus one byte and at most 12 plus four bytes for
    each code point of the key and of the value. *)
Theorem encode_kv_size (order : byteorder) (timestamp : Z) (key value : str)
    (sz : Z) (data : bytes) :
  encode_kv order timestamp key value = Ok (sz, data) ->
  sz = len data /\
  HEADER_SIZE + len key + len value <= sz
    <= HEADER_SIZE + 4 * (len key + len value).
Proof.
  intros E. apply encode_kv_inv in E.
  destruct E as (k & v & Ek & Ev & _ & _ & _ & -> & ->).
  destruct (str_encode_text _ _ Ek) as [_ Bk].
  destruct (str_encode_text _ _ Ev) as [_ Bv].
  rewrite (len_app (_ ++ _ ++ _)), len_header, len_app. lia.
Qed.

Lemma encode_kv_size_witness :
  15 = len [Byte.x00; Byte.x00; Byte.x00; Byte.x00; Byte.x01; Byte.x00;
            Byte.x00; Byte.x00; Byte.x01; Byte.x00; Byte.x00; Byte.x00;
            Byte.xc3; Byte.xa9; Byte.x61] /\
  HEADER_SIZE + len [0xE9] + len [0x61] <= 15
    <= HEADER_SIZE + 4 * (len [0xE9] + len [0x61]).
Proof.
  apply (encode_kv_size little 0 [0xE9] [0x61]). vm_compute. reflexivity.
Defined.

(** X3: when [encode_kv] returns, [decode_kv] of its bytes gives the
    timestamp, the key and the value back if and only if the key is ASCII;
    the value may be any text. *)
Theorem decode_encode_kv_iff (order : byteorder) (timestamp : Z)
    (key value : str) (sz : Z) (data : bytes) :
  encode_kv order timestamp key value = Ok (sz, data) ->
  (decode_kv order data = Ok (timestamp, key, value) <-> ascii_text key).
Proof. apply round_trip_iff_ascii_key. Qed.

Lemma decode_encode_kv_iff_witness :
  decode_kv big
    [Byte.x00; Byte.x00; Byte.x00; Byte.x07; Byte.x00; Byte.x00; Byte.x00;
     Byte.x01; Byte.x00; Byte.x00; Byte.x00; Byte.x01; Byte.x6b;
     Byte.xe2; Byte.x82; Byte.xac]
    = Ok (7, [0x6B], [0x20AC])
  <-> ascii_text [0x6B].
Proof.
  apply (decode_encode_kv_iff big 7 [0x6B] [0x20AC] 16). vm_compute. reflexivity.
Defined.

(** X4: [decode_header] returns exactly on buffers of 12 bytes; the three
    fields it returns fit in 32 bits and [encode_header] of them is the
    buffer again.  On any other length, longer ones too, it raises
    struct.error. *)
Theorem decode_header_outcome (order : byteorder) (data : bytes) :
  (len data = HEADER_SIZE ->
   exists t k v,
     decode_header order data = Ok (t, k, v) /\
     u32 t /\ u32 k /\ u32 v /\
     encode_header order t k v = Ok data) /\
  (len data <> HEADER_SIZE -> decode_header order data = Raise StructError).
Proof.
  split; [|apply decode_header_wrong_len].
  intros L. destruct (decode_header_total order data L) as (t & k & v & D).
  exists t, k, v. split; [exact D|].
  destruct (decode_header_inv _ _ _ _ _ D) as (-> & Ht & Hk & Hv).
  repeat (split; [assumption|]). apply encode_header_ok; assumption.
Qed.

Lemma decode_header_outcome_witness :
  decode_header little (repeat Byte.xff 13) = Raise StructError.
Proof.
  apply (proj2 (decode_header_outcome little (repeat Byte.xff 13))).
  vm_compute. discriminate.
Defined.

(** X5: [decode_kv] raises struct.error exactly on buffers of fewer than
    12 bytes, the empty one among them; on longer buffers its only error
    is UnicodeDecodeError. *)
Theorem decode_kv_struct_error (order : byteorder) (data : bytes) :
  (decode_kv order data = Raise StructError <-> len data < HEADER_SIZE) /\
  (forall e, decode_kv order data = Raise e ->
             e = StructError \/ e = UnicodeDecodeError).
Proof.
  split; [|intros e; apply decode_kv_raise].
  split.
  - intros D. destruct (Z.lt_ge_cases (len data) HEADER_SIZE) as [|Hge];
      [assumption|exfalso].
    destruct (decode_header_total order _ (len_slice_header _ Hge))
      as (t & k & v & Dh).
    revert D. unfold decode_kv. rewrite Dh. cbn [mbind result_bind].
    destruct (bytes_decode (slice data HEADER_SIZE (HEADER_SIZE + k)))
      as [key|e1] eqn:Bk; cbn [mbind result_bind].
    + destruct (bytes_decode (slice_from data (HEADER_SIZE + k)))
        as [value|e2] eqn:Bv; cbn [mbind result_bind]; [discriminate|].
      intros [= ->]. destruct (bytes_decode_raise_inv _ _ Bv). discriminate.
    + intros [= ->]. destruct (bytes_decode_raise_inv _ _ Bk). discriminate.
  - intros Hlt. unfold decode_kv.
    rewrite decode_header_wrong_len; [reflexivity|].
    unfold slice, len, HEADER_SIZE in *.
    change (Z.to_nat (12 - 0)) with 12%nat. change (Z.to_nat 0) with 0%nat.
    rewrite drop_0, length_take. lia.
Qed.

(** * Further properties of the engine *)

Lemma written_opened order allowed self :
  written order allowed self -> DiskStorage.opened order self.
Proof.
  induction 1 as [disk self Hi | w key value self _ IH _ _ | key self _ IH].
  - apply (DiskStorage.opened_init order disk), Hi.
  - apply DiskStorage.opened_set, IH.
  - apply DiskStorage.opened_get, IH.
Qed.

Lemma get_state_at_end key self :
  at_end self -> (DiskStorage.get key self).2 = self.
Proof.
  destruct self as [[c p] kd]. unfold at_end, DiskStorage.get.
  cbn [DiskStorage.file DiskStorage.key_dir content position]. intros ->.
  destruct (kd !! key) as [[value_pos value_sz]|]; [|reflexivity].
  destruct (file_seek value_pos 0 _) as [f1|e] eqn:S; [|reflexivity].
  apply file_seek_content in S. cbn [content] in S.
  unfold file_read. rewrite file_seek_end. cbn [snd content]. rewrite S.
  reflexivity.
Qed.

(** X6: [__init__] leaves the handle at the end of the file, and so do
    [set] and [get] whatever they return: on every engine a program can
    hold, [tell()] is the size of the file. *)
Theorem handle_rests_at_end (order : byteorder) (self : DiskStorage.t) :
  DiskStorage.opened order self ->
  file_tell (DiskStorage.file self) = len (content (DiskStorage.file self)).
Proof. intros Ho. apply (opened_at_end order self Ho). Qed.

Lemma handle_rests_at_end_witness :
  let w := {| time_time := 5; write_ok := true; write_partial := 0 |} in
  let self :=
    (DiskStorage.get [0x61]
       (DiskStorage.set little w [0x61] [0xE9]
          {| DiskStorage.file := {| content := []; position := 0 |};
             DiskStorage.key_dir := ∅ |}).2).2 in
  file_tell (DiskStorage.file self) = len (content (DiskStorage.file self)).
Proof.
  cbv zeta. apply (handle_rests_at_end little).
  apply DiskStorage.opened_get, DiskStorage.opened_set.
  apply (DiskStorage.opened_init little []). reflexivity.
Defined.

(** X7: [get] changes nothing: on every engine a program can hold, the
    file, the position of the handle and the key directory after [get] are
    those before it, for a key it knows as for one it does not, and also
    when decoding the bytes raises. *)
Theorem get_leaves_engine (order : byteorder) (key : str) (self : DiskStorage.t) :
  DiskStorage.opened order self ->
  (DiskStorage.get key self).2 = self.
Proof. intros Ho. apply get_state_at_end, (opened_at_end order self Ho). Qed.

Lemma get_leaves_engine_witness :
  let w := {| time_time := 5; write_ok := true; write_partial := 0 |} in
  let self :=
    (DiskStorage.set little w [0x61] [0xE9]
       {| DiskStorage.file := {| content := []; position := 0 |};
          DiskStorage.key_dir := ∅ |}).2 in
  (DiskStorage.get [0x61] self).2 = self.
Proof.
  cbv zeta. apply (get_leaves_engine little).
  apply DiskStorage.opened_set.
  apply (DiskStorage.opened_init little []). reflexivity.
Defined.

(** What [get] reads after [set] of the same key: the last bytes of the
    encoded value, as many as the value has code points. *)
Lemma get_after_set_bytes order w key value k v sz data self :
  at_end self ->
  encode_kv order (time_time w) key value = Ok (sz, data) ->
  str_encode key = Ok k -> str_encode value = Ok v ->
  write_ok w = true ->
  (DiskStorage.get key (DiskStorage.set order w key value self).2).1
  = bytes_decode (drop (Z.to_nat (len v - len value)) v).
Proof.
  intros Hend E Ek Ev W. rewrite (set_ok _ _ _ _ _ _ _ E W).
  apply encode_kv_inv in E.
  destruct E as (k' & v' & Ek' & Ev' & Ht & Hk & Hv & -> & ->).
  rewrite Ek in Ek'. rewrite Ev in Ev'. injection Ek' as <-. injection Ev' as <-.
  destruct (str_encode_text _ _ Ev) as [_ [Hlo _]].
  set (h := pack_I order (time_time w) ++ pack_I order (len key)
              ++ pack_I order (len value)).
  pose proof (len_header order (time_time w) (len key) (len value)) as Hh.
  fold h in Hh.
  set (m := Z.to_nat (len v - len value)).
  assert (Lt : len (take m v) = len v - len value).
  { unfold m, len in *. rewrite length_take. lia. }
  assert (Ld : len (drop m v) = len value).
  { unfold m, len in *. rewrite length_drop. lia. }
  unfold DiskStorage.get. cbn [snd DiskStorage.key_dir DiskStorage.file].
  rewrite lookup_insert_eq. rewrite Hend.
  pose proof (len_nonneg (content (DiskStorage.file self))).
  pose proof (len_nonneg k). pose proof (len_nonneg value).
  rewrite file_seek_set by (unfold HEADER_SIZE; lia).
  cbn [content].
  erewrite (file_read_tail _
              (content (DiskStorage.file self) ++ h ++ k ++ take m v)
              (drop m v)).
  - rewrite file_seek_end. reflexivity.
  - cbn [content]. rewrite <- !app_assoc, take_drop. reflexivity.
  - cbn [position]. rewrite !len_app. lia.
  - lia.
Qed.

Lemma set_returns_inv order w key value self :
  (DiskStorage.set order w key value self).1 = Ok tt ->
  exists sz data,
    encode_kv order (time_time w) key value = Ok (sz, data) /\
    write_ok w = true.
Proof.
  unfold DiskStorage.set, file_write.
  destruct (encode_kv order (time_time w) key value) as [[sz data]|];
    [|discriminate].
  cbn [DiskStorage.file]. destruct (write_ok w); [eauto | discriminate].
Qed.

(** X8: on every engine a program can hold, after a [set] that returns,
    [get] of the same key gives the value back if and only if the value is
    ASCII; the key may be any text. *)
Theorem write_then_read_iff (order : byteorder) (w : env) (key value : str)
    (self : DiskStorage.t) :
  DiskStorage.opened order self ->
  (DiskStorage.set order w key value self).1 = Ok tt ->
  ((DiskStorage.get key (DiskStorage.set order w key value self).2).1 = Ok value
   <-> ascii_text value).
Proof.
  intros Ho Hset. pose proof (opened_at_end _ _ Ho) as Hend.
  destruct (set_returns_inv _ _ _ _ _ Hset) as (sz & data & E & W).
  pose proof E as E'. apply encode_kv_inv in E'.
  destruct E' as (k & v & Ek & Ev & _).
  rewrite (get_after_set_bytes _ _ _ _ _ _ _ _ _ Hend E Ek Ev W).
  destruct (str_encode_text _ _ Ev) as [_ [Hlo _]].
  split.
  - intros D. apply bytes_decode_ok in D. rewrite Ev in D.
    injection D as D. apply (str_encode_len_ascii _ _ Ev).
    assert (length v = length (drop (Z.to_nat (len v - len value)) v)) as L
      by (rewrite <- D; reflexivity).
    rewrite length_drop in L. unfold len in *. lia.
  - intros Ha. rewrite (str_encode_ascii_len _ _ Ha Ev), Z.sub_diag.
    change (Z.to_nat 0) with 0%nat. rewrite drop_0.
    apply bytes_decode_ok, Ev.
Qed.

Lemma write_then_read_iff_witness :
  let w := {| time_time := 5; write_ok := true; write_partial := 0 |} in
  let self := {| DiskStorage.file := {| content := []; position := 0 |};
                 DiskStorage.key_dir := ∅ |} in
  (DiskStorage.get [0xE9] (DiskStorage.set big w [0xE9] [0x76; 0x31] self).2).1
    = Ok [0x76; 0x31]
  <-> ascii_text [0x76; 0x31].
Proof.
  cbv zeta.
  apply (write_then_read_iff big {| time_time := 5; write_ok := true; write_partial := 0 |}).
  - apply (DiskStorage.opened_init big []). reflexivity.
  - vm_compute. reflexivity.
Defined.

(** ** The entries of the key directory *)

Lemma index_records_in_file order rs : forall base kd,
  Forall wf_record rs -> 0 <= base ->
  (forall key p n, kd !! key = Some (p, n) ->
     HEADER_SIZE <= p /\ 0 <= n /\ p + n <= base) ->
  forall key p n,
    index_records base rs kd !! key = Some (p, n) ->
    HEADER_SIZE <= p /\ 0 <= n /\ p + n <= base + len (log_bytes order rs).
Proof.
  induction rs as [|r rs IH]; intros base kd Hwf Hb Hkd key p n.
  - cbn [index_records log_bytes map concat].
    change (len (@nil Byte.byte)) with 0. rewrite Z.add_0_r. apply Hkd.
  - inversion Hwf as [|? ? Hr Hrs]; subst.
    destruct (wf_record_key _ Hr) as [k Dk].
    cbn [index_records]. rewrite Dk.
    rewrite log_bytes_cons, len_app, record_bytes_len, Z.add_assoc.
    pose proof (record_size_lower r) as Hlow.
    pose proof (len_nonneg (rec_key r)). pose proof (len_nonneg (rec_value r)).
    apply IH; [assumption | unfold HEADER_SIZE in *; lia |].
    intros key' p' n'. rewrite lookup_insert.
    destruct (decide (k = key')) as [_|_].
    + intros [= <- <-]. unfold record_size, HEADER_SIZE in *. lia.
    + intros H'. destruct (Hkd _ _ _ H') as (? & ? & ?).
      unfold HEADER_SIZE in *. lia.
Qed.

Lemma init_state order disk self :
  DiskStorage.init order disk = Some (Ok self) ->
  exists rs,
    Forall wf_record rs /\ disk = log_bytes order rs /\
    self = {| DiskStorage.file :=
                {| content := log_bytes order rs;
                   position := len (log_bytes order rs) |};
              DiskStorage.key_dir := index_records 0 rs ∅ |}.
Proof.
  intros Hi. destruct (init_ok_log _ _ _ Hi) as (_ & rs & Hrs & ->).
  exists rs. split; [assumption|]. split; [reflexivity|].
  rewrite (init_log order rs Hrs) in Hi. injection Hi as <-. reflexivity.
Qed.

Lemma written_entries_in_file order self :
  written order any_text self -> entries_in_file self.
Proof.
  induction 1 as [disk self Hi | w key value self Hw IH W _ | key self Hw IH].
  - destruct (init_state _ _ _ Hi) as (rs & Hrs & _ & ->).
    unfold entries_in_file. cbn [DiskStorage.file DiskStorage.key_dir content].
    intros key p n H.
    apply (index_records_in_file order rs 0 ∅ Hrs ltac:(lia)) in H;
      [rewrite Z.add_0_l in H; exact H|].
    intros key' p' n'. rewrite lookup_empty. discriminate.
  - pose proof (opened_at_end _ _ (written_opened _ _ _ Hw)) as Hend.
    destruct (encode_kv order (time_time w) key value) as [[sz data]|e] eqn:E.
    + rewrite (set_ok _ _ _ _ _ _ _ E W).
      apply encode_kv_inv in E.
      destruct E as (k & v & Ek & Ev & _ & _ & _ & -> & ->).
      destruct (str_encode_text _ _ Ev) as [_ [Hlo _]].
      pose proof (len_nonneg (content (DiskStorage.file self))).
      pose proof (len_nonneg k). pose proof (len_nonneg value).
      unfold entries_in_file.
      cbn [snd DiskStorage.file DiskStorage.key_dir content].
      intros key' p n. rewrite lookup_insert.
      rewrite (len_app (content _)), (len_app (_ ++ _ ++ _)), len_header, len_app.
      destruct (decide (key = key')) as [_|_].
      * intros [= <- <-]. rewrite Hend. unfold HEADER_SIZE. lia.
      * intros H'. destruct (IH _ _ _ H') as (? & ? & ?).
        unfold HEADER_SIZE in *. lia.
    + unfold DiskStorage.set. rewrite E. exact IH.
  - rewrite get_state_at_end; [exact IH|].
    apply (opened_at_end order), (written_opened _ _ _ Hw).
Qed.

(** X9: on an engine whose writes all went through, every entry of the
    key directory lies in the file: the offset is at least 12, the size is
    not negative and offset plus size does not pass the end of the file. *)
Theorem key_dir_entries_in_file (order : byteorder) (self : DiskStorage.t)
    (key : str) (value_pos value_sz : Z) :
  written order any_text self ->
  DiskStorage.key_dir self !! key = Some (value_pos, value_sz) ->
  HEADER_SIZE <= value_pos /\ 0 <= value_sz /\
  value_pos + value_sz <= len (content (DiskStorage.file self)).
Proof. intros Hw. apply (written_entries_in_file order self Hw). Qed.

Lemma key_dir_entries_in_file_witness :
  let w := {| time_time := 5; write_ok := true; write_partial := 0 |} in
  let self :=
    (DiskStorage.set little w [0x61] [0xE9]
       {| DiskStorage.file := {| content := []; position := 0 |};
          DiskStorage.key_dir := ∅ |}).2 in
  HEADER_SIZE <= 14 /\ 0 <= 1 /\
  14 + 1 <= len (content (DiskStorage.file self)).
Proof.
  cbv zeta.
  apply (key_dir_entries_in_file little _ [0x61] 14 1).
  - apply (written_set little any_text).
    + apply (written_init little any_text []). reflexivity.
    + reflexivity.
    + exact I.
  - vm_compute. reflexivity.
Defined.

(** What [get] returns is read off the entry and the bytes it points at. *)
Lemma get_result key self p n :
  DiskStorage.key_dir self !! key = Some (p, n) -> 0 <= p -> 0 <= n ->
  (DiskStorage.get key self).1
  = bytes_decode (take (Z.to_nat n)
                    (drop (Z.to_nat p) (content (DiskStorage.file self)))).
Proof.
  intros H Hp Hn. unfold DiskStorage.get. rewrite H.
  rewrite file_seek_set by assumption.
  unfold file_read, slice_from. cbn [content position].
  rewrite ltb_false by assumption. rewrite file_seek_end. reflexivity.
Qed.

(** X10: on an engine whose writes all went through, [get] returns a
    text or raises UnicodeDecodeError, nothing else: the seek is never
    refused, and the bytes read are the [value_sz] bytes the entry points
    at. *)
Theorem get_raises_only_decode_error (order : byteorder) (key : str)
    (self : DiskStorage.t) :
  written order any_text self ->
  (exists s, (DiskStorage.get key self).1 = Ok s) \/
  (DiskStorage.get key self).1 = Raise UnicodeDecodeError.
Proof.
  intros Hw.
  destruct (DiskStorage.key_dir self !! key) as [[p n]|] eqn:H.
  - destruct (written_entries_in_file _ _ Hw _ _ _ H) as (Hp & Hn & _).
    rewrite (get_result _ _ _ _ H) by (unfold HEADER_SIZE in *; lia).
    destruct (bytes_decode _) as [s|e] eqn:D; [left; eauto|].
    right. destruct (bytes_decode_raise_inv _ _ D) as [-> _]. reflexivity.
  - rewrite (get_missing _ _ H). left. eauto.
Qed.

Lemma get_raises_only_decode_error_witness :
  let w := {| time_time := 5; write_ok := true; write_partial := 0 |} in
  let self :=
    (DiskStorage.set little w [0x61] [0xE9]
       {| DiskStorage.file := {| content := []; position := 0 |};
          DiskStorage.key_dir := ∅ |}).2 in
  (exists s, (DiskStorage.get [0x61] self).1 = Ok s) \/
  (DiskStorage.get [0x61] self).1 = Raise UnicodeDecodeError.
Proof.
  cbv zeta.
  apply (get_raises_only_decode_error little).
  apply (written_set little any_text).
  - apply (written_init little any_text []). reflexivity.
  - reflexivity.
  - exact I.
Defined.

(** X11: on an engine whose writes all went through, [set] of one key,
    whether it returns or raises, leaves what [get] returns for every
    other key as it was. *)
Theorem set_keeps_other_keys (order : byteorder) (w : env) (key value other : str)
    (self : DiskStorage.t) :
  written order any_text self ->
  key <> other ->
  (DiskStorage.get other (DiskStorage.set order w key value self).2).1
  = (DiskStorage.get other self).1.
Proof.
  intros Hw Hne. pose proof (written_entries_in_file _ _ Hw) as Hin.
  assert (Hkd : DiskStorage.key_dir (DiskStorage.set order w key value self).2
                  !! other = DiskStorage.key_dir self !! other).
  { unfold DiskStorage.set, file_write.
    destruct (encode_kv order (time_time w) key value) as [[sz data]|];
      [|reflexivity].
    cbn [DiskStorage.file DiskStorage.key_dir].
    destruct (write_ok w); cbn [snd DiskStorage.key_dir];
      apply lookup_insert_ne, Hne. }
  assert (Hc : exists more,
             content (DiskStorage.file (DiskStorage.set order w key value self).2)
             = content (DiskStorage.file self) ++ more).
  { unfold DiskStorage.set, file_write.
    destruct (encode_kv order (time_time w) key value) as [[sz data]|];
      [|exists []; rewrite app_nil_r; reflexivity].
    cbn [DiskStorage.file DiskStorage.key_dir].
    destruct (write_ok w); cbn [snd DiskStorage.file content]; eauto. }
  destruct Hc as [more Hc].
  destruct (DiskStorage.key_dir self !! other) as [[p n]|] eqn:H.
  - destruct (Hin _ _ _ H) as (Hp & Hn & Hfit).
    rewrite (get_result _ _ _ _ Hkd), (get_result _ _ _ _ H)
      by (unfold HEADER_SIZE in *; lia).
    rewrite Hc. f_equal.
    unfold len, HEADER_SIZE in *.
    rewrite drop_app_le by lia.
    rewrite take_app_le by (rewrite length_drop; lia). reflexivity.
  - rewrite (get_missing _ _ Hkd), (get_missing _ _ H). reflexivity.
Qed.

Lemma set_keeps_other_keys_witness :
  let w := {| time_time := 5; write_ok := true; write_partial := 0 |} in
  let self :=
    (DiskStorage.set little w [0x61] [0x31]
       {| DiskStorage.file := {| content := []; position := 0 |};
          DiskStorage.key_dir := ∅ |}).2 in
  (DiskStorage.get [0x61] (DiskStorage.set little w [0x62] [0xE9] self).2).1
  = (DiskStorage.get [0x61] self).1.
Proof.
  cbv zeta.
  apply (set_keeps_other_keys little).
  - apply (written_set little any_text).
    + apply (written_init little any_text []). reflexivity.
    + reflexivity.
    + exact I.
  - discriminate.
Defined.

(** ** Closing and opening again *)

Lemma set_ascii_state order w key value rs :
  Forall wf_record rs -> write_ok w = true ->
  ascii_text key -> ascii_text value ->
  exists rs',
    Forall wf_record rs' /\
    (DiskStorage.set order w key value
       {| DiskStorage.file :=
            {| content := log_bytes order rs;
               position := len (log_bytes order rs) |};
          DiskStorage.key_dir := index_records 0 rs ∅ |}).2
    = {| DiskStorage.file :=
           {| content := log_bytes order rs';
              position := len (log_bytes order rs') |};
         DiskStorage.key_dir := index_records 0 rs' ∅ |}.
Proof.
  intros Hrs W Hak Hav.
  destruct (encode_kv order (time_time w) key value) as [[sz data]|e] eqn:E.
  2:{ exists rs. split; [assumption|].
      unfold DiskStorage.set. rewrite E. reflexivity. }
  rewrite (set_ok _ _ _ _ _ _ _ E W).
  apply encode_kv_inv in E.
  destruct E as (k & v & Ek & Ev & Ht & Hk & Hv & -> & ->).
  pose proof (str_encode_ascii_len _ _ Hak Ek) as Lk.
  pose proof (str_encode_ascii_len _ _ Hav Ev) as Lv.
  set (r := {| rec_timestamp := time_time w; rec_key := k; rec_value := v |}).
  assert (Hr : wf_record r).
  { unfold wf_record, r. cbn [rec_timestamp rec_key rec_value].
    rewrite Lk, Lv. repeat split; try apply Ht; try apply Hk; try apply Hv;
      eexists; eassumption. }
  assert (Dk : utf8_decode (rec_key r) = Some key)
    by (apply utf8_decode_encode, Ek).
  assert (Hdata : (pack_I order (time_time w) ++ pack_I order (len key)
                     ++ pack_I order (len value)) ++ k ++ v
                  = record_bytes order r).
  { unfold record_bytes, r. cbn [rec_timestamp rec_key rec_value].
    rewrite Lk, Lv. reflexivity. }
  assert (Hdisk : log_bytes order rs ++ record_bytes order r
                  = log_bytes order (rs ++ [r])).
  { rewrite log_bytes_app. unfold log_bytes at 3. cbn [map concat].
    rewrite app_nil_r. reflexivity. }
  exists (rs ++ [r]). split.
  { apply Forall_app. split; [assumption | constructor; [assumption | constructor]]. }
  cbn [snd DiskStorage.file DiskStorage.key_dir content position].
  rewrite Hdata, Hdisk. f_equal.
  rewrite (index_records_app order) by assumption.
  cbn [index_records]. rewrite Dk. f_equal. f_equal.
  - unfold record_size, r. cbn [rec_key rec_value]. lia.
  - unfold r. cbn [rec_value]. symmetry. exact Lv.
Qed.

Lemma written_ascii_state order self :
  written order ascii_pair self ->
  exists rs,
    Forall wf_record rs /\
    self = {| DiskStorage.file :=
                {| content := log_bytes order rs;
                   position := len (log_bytes order rs) |};
              DiskStorage.key_dir := index_records 0 rs ∅ |}.
Proof.
  induction 1 as [disk self Hi | w key value self Hw IH W [Hak Hav]
                  | key self Hw IH].
  - destruct (init_state _ _ _ Hi) as (rs & Hrs & _ & ->). eauto.
  - destruct IH as (rs & Hrs & ->).
    apply set_ascii_state; assumption.
  - rewrite get_state_at_end; [exact IH|].
    apply (opened_at_end order), (written_opened _ _ _ Hw).
Qed.

(** X12: an engine that has only been given ASCII keys and values, by
    writes that went through, can be closed and opened again: [__init__]
    over the file it leaves returns the same file, the same handle position
    and the same key directory. *)
Theorem reopen_restores_engine (order : byteorder) (self : DiskStorage.t) :
  written order ascii_pair self ->
  DiskStorage.init order (DiskStorage.close self) = Some (Ok self).
Proof.
  intros Hw. destruct (written_ascii_state _ _ Hw) as (rs & Hrs & ->).
  unfold DiskStorage.close. cbn [DiskStorage.file content].
  apply init_log, Hrs.
Qed.

Lemma reopen_restores_engine_witness :
  let w := {| time_time := 5; write_ok := true; write_partial := 0 |} in
  let self :=
    (DiskStorage.set little w [0x62] [0x32]
       (DiskStorage.set little w [0x61] [0x31]
          {| DiskStorage.file := {| content := []; position := 0 |};
             DiskStorage.key_dir := ∅ |}).2).2 in
  DiskStorage.init little (DiskStorage.close self) = Some (Ok self).
Proof.
  cbv zeta. apply (reopen_restores_engine little).
  apply (written_set little ascii_pair).
  - apply (written_set little ascii_pair).
    + apply (written_init little ascii_pair []). reflexivity.
    + reflexivity.
    + split; repeat constructor; lia.
  - reflexivity.
  - split; repeat constructor; lia.
Defined.

(** X13: [__init__] returns an engine exactly over the files that are
    well-formed records laid end to end (the empty file among them), and
    the engine it returns holds the file, the handle at its end and the
    key directory that indexes the records, later records replacing
    earlier ones of the same key. *)
Theorem init_accepts_logs (order : byteorder) (disk : bytes)
    (self : DiskStorage.t) :
  DiskStorage.init order disk = Some (Ok self) <->
  exists rs,
    Forall wf_record rs /\ disk = log_bytes order rs /\
    self = {| DiskStorage.file :=
                {| content := disk; position := len disk |};
              DiskStorage.key_dir := index_records 0 rs ∅ |}.
Proof.
  split.
  - intros Hi. destruct (init_state _ _ _ Hi) as (rs & Hrs & -> & ->).
    exists rs. auto.
  - intros (rs & Hrs & -> & ->). apply init_log, Hrs.
Qed.

(** ** What the startup scan finds *)

Lemma index_records_skip key rs : forall base kd,
  Forall wf_record rs ->
  Forall (fun r => utf8_decode (rec_key r) <> Some key) rs ->
  index_records base rs kd !! key = kd !! key.
Proof.
  induction rs as [|r rs IH]; intros base kd Hwf Hne; [reflexivity|].
  inversion Hwf as [|? ? Hr Hrs]; subst.
  inversion Hne as [|? ? Hk Hks]; subst.
  destruct (wf_record_key _ Hr) as [k Dk].
  cbn [index_records]. rewrite Dk, IH by assumption.
  apply lookup_insert_ne. intros ->. contradiction.
Qed.

(** X14: over a file of well-formed records, [__init__] returns an engine
    where [get] of a key gives the value of the last record written for
    that key, whatever records for it or for other keys come before and
    whatever records for other keys come after. *)
Theorem scan_finds_last_record (order : byteorder) (before after : list record)
    (r : record) (key value : str) :
  Forall wf_record before -> wf_record r -> Forall wf_record after ->
  str_encode key = Ok (rec_key r) -> str_encode value = Ok (rec_value r) ->
  Forall (fun r' => rec_key r' <> rec_key r) after ->
  exists self,
    DiskStorage.init order (log_bytes order (before ++ r :: after))
      = Some (Ok self) /\
    (DiskStorage.get key self).1 = Ok value.
Proof.
  intros Hb Hr Ha Ek Ev Hne.
  assert (Hall : Forall wf_record (before ++ r :: after))
    by (apply Forall_app; split; [|constructor]; assumption).
  eexists. split; [apply init_log, Hall|].
  assert (Dk : utf8_decode (rec_key r) = Some key)
    by (apply utf8_decode_encode, Ek).
  pose proof (record_size_lower r) as Hlow.
  pose proof (len_nonneg (log_bytes order before)) as Hpre.
  pose proof (len_nonneg (rec_key r)). pose proof (len_nonneg (rec_value r)).
  erewrite get_result; cycle 1.
  { cbn [DiskStorage.key_dir].
    rewrite (index_records_app order) by assumption.
    cbn [index_records]. rewrite Dk.
    rewrite index_records_skip; [apply lookup_insert_eq | assumption |].
    eapply Forall_impl; [exact Hne|]. cbn beta. intros r' Hr' D.
    apply Hr'. apply utf8_encode_decode in D. rewrite Ek in D.
    injection D as D. symmetry. exact D. }
  { unfold record_size, HEADER_SIZE in *. lia. }
  { lia. }
  cbn [DiskStorage.file content].
  set (h := pack_I order (rec_timestamp r) ++ pack_I order (len (rec_key r))
              ++ pack_I order (len (rec_value r))).
  assert (Hh : len h = HEADER_SIZE) by apply len_header.
  assert (Hc : log_bytes order (before ++ r :: after)
               = (log_bytes order before ++ h ++ rec_key r)
                   ++ rec_value r ++ log_bytes order after).
  { rewrite log_bytes_app, log_bytes_cons. unfold record_bytes. fold h.
    rewrite <- !app_assoc. reflexivity. }
  rewrite Hc.
  replace (Z.to_nat (0 + len (log_bytes order before) + record_size r
                     - len (rec_value r)))
    with (length (log_bytes order before ++ h ++ rec_key r))
    by (rewrite !length_app; unfold record_size, len, HEADER_SIZE in *; lia).
  rewrite drop_app_length. unfold len. rewrite Nat2Z.id, take_app_length.
  apply bytes_decode_ok, Ev.
Qed.

Lemma scan_finds_last_record_witness :
  let r1 := {| rec_timestamp := 1; rec_key := [Byte.x61]; rec_value := [Byte.x31] |} in
  let r2 := {| rec_timestamp := 2; rec_key := [Byte.x61];
               rec_value := [Byte.xc3; Byte.xa9] |} in
  let r3 := {| rec_timestamp := 3; rec_key := [Byte.x62]; rec_value := [] |} in
  exists self,
    DiskStorage.init big (log_bytes big ([r1] ++ r2 :: [r3])) = Some (Ok self) /\
    (DiskStorage.get [0x61] self).1 = Ok [0xE9].
Proof.
  cbv zeta.
  apply (scan_finds_last_record big
           [{| rec_timestamp := 1; rec_key := [Byte.x61]; rec_value := [Byte.x31] |}]
           [{| rec_timestamp := 3; rec_key := [Byte.x62]; rec_value := [] |}]
           {| rec_timestamp := 2; rec_key := [Byte.x61];
              rec_value := [Byte.xc3; Byte.xa9] |}).
  - constructor; [|constructor].
    unfold wf_record; cbn [rec_timestamp rec_key rec_value].
    repeat split; try (apply u32_bounds; unfold len; cbn [length]; lia).
    + exists [0x61]. reflexivity.
    + exists [0x31]. reflexivity.
  - unfold wf_record; cbn [rec_timestamp rec_key rec_value].
    repeat split; try (apply u32_bounds; unfold len; cbn [length]; lia).
    + exists [0x61]. reflexivity.
    + exists [0xE9]. reflexivity.
  - constructor; [|constructor].
    unfold wf_record; cbn [rec_timestamp rec_key rec_value].
    repeat split; try (apply u32_bounds; unfold len; cbn [length]; lia).
    + exists [0x62]. reflexivity.
    + exists []. reflexivity.
  - reflexivity.
  - reflexivity.
  - constructor; [discriminate | constructor].
Defined.



(** ** The rest of [set] and the dictionary access *)

Lemma encode_kv_raise order timestamp key value e :
  encode_kv order timestamp key value = Raise e ->
  e = StructError \/ e = UnicodeEncodeError.
Proof.
  unfold encode_kv, encode_header, struct_pack_III.
  destruct (is_u32 timestamp && is_u32 (len key) && is_u32 (len value));
    cbn [mbind result_bind]; [|intros [= <-]; left; reflexivity].
  destruct (str_encode key) as [k|e1] eqn:Ek; cbn [mbind result_bind].
  - destruct (str_encode value) as [v|e2] eqn:Ev; cbn [mbind result_bind];
      [discriminate|].
    intros [= <-]. right. apply (str_encode_raise _ _ Ev).
  - intros [= <-]. right. apply (str_encode_raise _ _ Ek).
Qed.

(** X16: when [set] raises anything but OSError, that is when the record
    cannot be encoded (a field out of range, a surrogate in a text), the
    engine is as before: nothing was put in the key directory and nothing
    was written. *)
Theorem set_encode_error_changes_nothing (order : byteorder) (w : env)
    (key value : str) (self : DiskStorage.t) (e : exn) :
  (DiskStorage.set order w key value self).1 = Raise e ->
  e <> OSError ->
  (e = StructError \/ e = UnicodeEncodeError) /\
  encode_kv order (time_time w) key value = Raise e /\
  (DiskStorage.set order w key value self).2 = self.
Proof.
  unfold DiskStorage.set, file_write.
  pose proof (encode_kv_raise order (time_time w) key value) as Hk.
  destruct (encode_kv order (time_time w) key value) as [[sz data]|e0].
  - cbn [DiskStorage.file]. destruct (write_ok w); [discriminate|].
    intros [= <-] Hne. contradiction.
  - intros [= <-] _. split; [apply Hk; reflexivity|].
    split; reflexivity.
Qed.

Lemma set_encode_error_changes_nothing_witness :
  let w := {| time_time := 5; write_ok := true; write_partial := 0 |} in
  let self := {| DiskStorage.file := {| content := []; position := 0 |};
                 DiskStorage.key_dir := ∅ |} in
  (UnicodeEncodeError = StructError \/ UnicodeEncodeError = UnicodeEncodeError) /\
  encode_kv little (time_time w) [0x61] [0xD800] = Raise UnicodeEncodeError /\
  (DiskStorage.set little w [0x61] [0xD800] self).2 = self.
Proof.
  cbv zeta.
  apply (set_encode_error_changes_nothing little
           {| time_time := 5; write_ok := true; write_partial := 0 |} [0x61] [0xD800]).
  - vm_compute. reflexivity.
  - discriminate.
Defined.

(** X17: the dictionary access goes through [set] and [get]: on every
    engine a program can hold, after [self[key] = value] has returned for
    an ASCII value, [self[key]] is that value, and reading it leaves the
    engine as the assignment left it. *)
Theorem setitem_then_getitem (order : byteorder) (w : env) (key value : str)
    (self : DiskStorage.t) :
  DiskStorage.opened order self ->
  (DiskStorage.__setitem__ order w key value self).1 = Ok tt ->
  ascii_text value ->
  DiskStorage.__getitem__ key (DiskStorage.__setitem__ order w key value self).2
  = (Ok value, (DiskStorage.__setitem__ order w key value self).2).
Proof.
  unfold DiskStorage.__setitem__, DiskStorage.__getitem__.
  intros Ho Hset Ha. pose proof (opened_at_end _ _ Ho) as Hend.
  destruct (set_returns_inv _ _ _ _ _ Hset) as (sz & data & E & W).
  pose proof (get_after_set _ _ _ _ _ _ _ Hend E W Ha) as Hget.
  pose proof (get_state_at_end key _ (set_at_end order w key value self Hend))
    as Hst.
  destruct (DiskStorage.get key (DiskStorage.set order w key value self).2)
    as [res st]. cbn [fst snd] in Hget, Hst. subst. reflexivity.
Qed.

Lemma setitem_then_getitem_witness :
  let w := {| time_time := 5; write_ok := true; write_partial := 0 |} in
  let self := {| DiskStorage.file := {| content := []; position := 0 |};
                 DiskStorage.key_dir := ∅ |} in
  DiskStorage.__getitem__ [0xE9]
    (DiskStorage.__setitem__ little w [0xE9] [0x76] self).2
  = (Ok [0x76], (DiskStorage.__setitem__ little w [0xE9] [0x76] self).2).
Proof.
  cbv zeta.
  apply (setitem_then_getitem little {| time_time := 5; write_ok := true; write_partial := 0 |}).
  - apply (DiskStorage.opened_init little []). reflexivity.
  - vm_compute. reflexivity.
  - repeat constructor; lia.
Defined.
